(** * az_table_catalog: a secondary-index catalog over a partitioned table store

    Shallow embedding of [src/az_table_catalog/az_table_catalog.py] and the
    properties of its key codec, write-ahead log replay and query engine.

    Modelling conventions.
    - Python [str] is [string] (a list of 8-bit characters).  On ASCII
      strings [len], [.lower()] and [.encode()] act bytewise, and that is
      what [Py.lower] and [String.length] are.  Python's [.lower()] is
      Unicode-aware beyond ASCII (it depends on context and can change the
      length), so a statement that depends on what lower-casing returns
      assumes [Py.isascii] of the strings that are lower-cased.
    - A record, a payload and a stored entity are Python dicts with string
      keys: [gmap string string].  Scalar values are kept in their [str]
      form, so the [str(...)] calls of the source are the identity.
    - The two Azure tables are finite maps from (PartitionKey, RowKey) to
      entities; every backing-store call may fail, which is decided by an
      explicit fault script carried in the state.
    - An entity read back carries its own PartitionKey and RowKey; the
      store's Timestamp and etag are not modelled, since every read goes
      through [_entity_to_payload] or one named field.
    - [query] formats its OData filter as text, splicing the partition key
      and the row bounds between quotes as they are; the store reads the
      text back ([parse_filter]: a quote ends a literal, a doubled quote
      stands for one) and fails the request when it cannot.  A statement
      that promises rows assumes [quote_free] values and bounds.  The
      filter of [recover] is kept structured ([PartitionKey eq 'wal' and
      RowKey gt start]): its start is the checkpoint the client stored,
      the fixed default, or an explicit [start_time], read as a string
      without quote.
    - The three SDK calls that end [__init__] return or raise as the
      service decides: their outcomes are an input ([SdkOutcome]).
    - [_make_tx_row_key] reads the clock and draws a uuid: the identifiers
      it returns are an input of the environment, carried in the state.
    - Exceptions are values of [exn]; code runs in a state-and-exception
      monad [M]. *)

From Stdlib Require Import ZArith Ascii String DecimalString DecimalNat.
From stdpp Require Import gmap strings list fin_maps sorting.

Local Open Scope Z_scope.

(** ** Python string built-ins *)
Module Py.

(** [s.isascii()]: every character is below 128. *)
Fixpoint isascii (s : string) : bool :=
  match s with
  | EmptyString => true
  | String c s' => (N_of_ascii c <? 128)%N && isascii s'
  end.

(** [c.lower()] for one ASCII character. *)
Definition lower_ascii (c : ascii) : ascii :=
  let n := N_of_ascii c in
  if ((65 <=? n) && (n <=? 90))%N then ascii_of_N (n + 32) else c.

(** [s.lower()] for a string with [s.isascii()]: the bytewise mapping of
    [A..Z] to [a..z].  (Characters from 128 on are left as they are here,
    which is not what Python does to them.) *)
Fixpoint lower (s : string) : string :=
  match s with
  | EmptyString => EmptyString
  | String c s' => String (lower_ascii c) (lower s')
  end.

(** [str(n)] for a non-negative integer. *)
Definition str_nat (n : nat) : string :=
  NilEmpty.string_of_uint (Nat.to_uint n).

(** [sep.join(l)]. *)
Fixpoint join (sep : string) (l : list string) : string :=
  match l with
  | [] => EmptyString
  | [x] => x
  | x :: l' => x +:+ sep +:+ join sep l'
  end.

(** [sorted(l)] on a list of strings: ascending code-point order. *)
Definition sorted (l : list string) : list string :=
  merge_sort String.le l.

(** [s[:n]]. *)
Definition slice_to (n : nat) (s : string) : string :=
  String.substring 0 n s.

End Py.

(** ** [hashlib.md5]: RFC 1321 on byte strings *)
Module hashlib.

Definition w32 (x : Z) : Z := Z.land x 0xFFFFFFFF.

Definition rotl (x c : Z) : Z :=
  w32 (Z.lor (Z.shiftl x c) (Z.shiftr x (32 - c))).

Definition K : list Z :=
  [ 0xd76aa478; 0xe8c7b756; 0x242070db; 0xc1bdceee;
    0xf57c0faf; 0x4787c62a; 0xa8304613; 0xfd469501;
    0x698098d8; 0x8b44f7af; 0xffff5bb1; 0x895cd7be;
    0x6b901122; 0xfd987193; 0xa679438e; 0x49b40821;
    0xf61e2562; 0xc040b340; 0x265e5a51; 0xe9b6c7aa;
    0xd62f105d; 0x02441453; 0xd8a1e681; 0xe7d3fbc8;
    0x21e1cde6; 0xc33707d6; 0xf4d50d87; 0x455a14ed;
    0xa9e3e905; 0xfcefa3f8; 0x676f02d9; 0x8d2a4c8a;
    0xfffa3942; 0x8771f681; 0x6d9d6122; 0xfde5380c;
    0xa4beea44; 0x4bdecfa9; 0xf6bb4b60; 0xbebfbc70;
    0x289b7ec6; 0xeaa127fa; 0xd4ef3085; 0x04881d05;
    0xd9d4d039; 0xe6db99e5; 0x1fa27cf8; 0xc4ac5665;
    0xf4292244; 0x432aff97; 0xab9423a7; 0xfc93a039;
    0x655b59c3; 0x8f0ccc92; 0xffeff47d; 0x85845dd1;
    0x6fa87e4f; 0xfe2ce6e0; 0xa3014314; 0x4e0811a1;
    0xf7537e82; 0xbd3af235; 0x2ad7d2bb; 0xeb86d391 ].

Definition shifts : list Z :=
  [ 7; 12; 17; 22; 7; 12; 17; 22; 7; 12; 17; 22; 7; 12; 17; 22;
    5;  9; 14; 20; 5;  9; 14; 20; 5;  9; 14; 20; 5;  9; 14; 20;
    4; 11; 16; 23; 4; 11; 16; 23; 4; 11; 16; 23; 4; 11; 16; 23;
    6; 10; 15; 21; 6; 10; 15; 21; 6; 10; 15; 21; 6; 10; 15; 21 ].

Definition state : Type := Z * Z * Z * Z.

Definition init : state :=
  (0x67452301, 0xefcdab89, 0x98badcfe, 0x10325476).

Definition lnot32 (x : Z) : Z := Z.lxor x 0xFFFFFFFF.

(** One of the 64 operations of a block; [M] holds the block's sixteen
    little-endian words. *)
Definition step (M : list Z) (st : state) (i : nat) : state :=
  let '(A, B, C, D) := st in
  let '(F, g) :=
    if (i <? 16)%nat then
      (Z.lor (Z.land B C) (Z.land (lnot32 B) D), i)
    else if (i <? 32)%nat then
      (Z.lor (Z.land D B) (Z.land (lnot32 D) C), ((5 * i + 1) mod 16)%nat)
    else if (i <? 48)%nat then
      (Z.lxor B (Z.lxor C D), ((3 * i + 5) mod 16)%nat)
    else
      (Z.lxor C (Z.lor B (lnot32 D)), ((7 * i) mod 16)%nat) in
  let F' := w32 (F + A + nth i K 0 + nth g M 0) in
  (D, w32 (B + rotl F' (nth i shifts 0)), B, C).

(** Little-endian 32-bit word of four bytes. *)
Definition word_le (bs : list Z) : Z :=
  nth 0 bs 0 + 256 * (nth 1 bs 0 + 256 * (nth 2 bs 0 + 256 * nth 3 bs 0)).

Definition words_of_block (blk : list Z) : list Z :=
  (λ j, word_le (take 4 (drop (4 * j) blk))) <$> seq 0 16.

Definition process (st : state) (blk : list Z) : state :=
  let M := words_of_block blk in
  let '(a0, b0, c0, d0) := st in
  let '(A, B, C, D) := foldl (step M) st (seq 0 64) in
  (w32 (a0 + A), w32 (b0 + B), w32 (c0 + C), w32 (d0 + D)).

(** [n] as [k] little-endian bytes. *)
Fixpoint bytes_le (k : nat) (n : Z) : list Z :=
  match k with
  | O => []
  | S k' => (n mod 256) :: bytes_le k' (n / 256)
  end.

(** Message padding: a 1 bit, zeros up to 56 mod 64, the bit length. *)
Definition pad (msg : list Z) : list Z :=
  let len := length msg in
  let zeros := ((119 - len mod 64) mod 64)%nat in
  msg ++ [128] ++ replicate zeros 0 ++ bytes_le 8 (8 * Z.of_nat len).

Definition blocks (bs : list Z) : list (list Z) :=
  (λ j, take 64 (drop (64 * j) bs)) <$> seq 0 (length bs / 64).

Definition digest_bytes (msg : list Z) : list Z :=
  let '(a, b, c, d) := foldl process init (blocks (pad msg)) in
  bytes_le 4 a ++ bytes_le 4 b ++ bytes_le 4 c ++ bytes_le 4 d.

Definition hex_digit (n : Z) : ascii :=
  if n <? 10 then ascii_of_N (Z.to_N (48 + n))
  else ascii_of_N (Z.to_N (87 + n)).

Definition hex_byte (b : Z) (rest : string) : string :=
  String (hex_digit (b / 16 mod 16)) (String (hex_digit (b mod 16)) rest).

(** [s.encode()] on an ASCII string. *)
Fixpoint encode (s : string) : list Z :=
  match s with
  | EmptyString => []
  | String c s' => Z.of_N (N_of_ascii c) :: encode s'
  end.

(** [hashlib.md5(data).hexdigest()]. *)
Definition md5_hexdigest (data : list Z) : string :=
  foldr hex_byte EmptyString (digest_bytes data).

End hashlib.

(** ** Internal helpers: the key codec *)

(** [f"{len(field)}_{field}{value}".lower()] *)
Definition _partition_key (field value : string) : string :=
  Py.lower (Py.str_nat (String.length field) +:+ "_" +:+ field +:+ value).

Abbreviation dict := (gmap string string).

(** The values [str(record[k]).lower() for k in sorted(index_keys)];
    [inl k] is the [KeyError] of the first absent field. *)
Fixpoint index_values (record : dict) (keys : list string)
  : string + list string :=
  match keys with
  | [] => inr []
  | k :: keys' =>
      match record !! k with
      | None => inl k
      | Some v =>
          match index_values record keys' with
          | inl k' => inl k'
          | inr vs => inr (Py.lower v :: vs)
          end
      end
  end.

(** [hashlib.md5(index_values.encode()).hexdigest()[:8]] *)
Definition fingerprint (index_values : string) : string :=
  Py.slice_to 8 (hashlib.md5_hexdigest (hashlib.encode index_values)).

(** [_row_key(record, row_key_value, index_keys)]: the content key, or the
    field whose lookup raises [KeyError]. *)
Definition _row_key (record : dict) (row_key_value : string)
    (index_keys : list string) : string + string :=
  match index_values record (Py.sorted index_keys) with
  | inl k => inl k
  | inr vs => inr (row_key_value +:+ ":" +:+ fingerprint (Py.join "|" vs))
  end.

(** [_entity_to_payload(entity)] *)
Definition metadata_keys : list string :=
  ["PartitionKey"; "RowKey"; "Timestamp"; "etag"].

Definition _entity_to_payload (entity : dict) : dict :=
  filter (λ kv, kv.1 ∉ metadata_keys) entity.

(** The dict display [{k1: v1, ..., **payload}]: later keys win. *)
Definition spread (fixed : list (string * string)) (payload : dict) : dict :=
  payload ∪ list_to_map fixed.

(** ** Exceptions and the state of the two tables *)

Inductive value_error : Type :=
  | MissingFields (missing : list string)
      (* insert: record is missing required fields: {missing} *)
  | UnknownField (field : string)
      (* '{field}' is not a known index_key. *)
  | FilterNotOneKey
      (* filter must have exactly one key. *)
  | SchemaIncomplete.
      (* Both index_keys and row_key must be provided. *)

Inductive exn : Type :=
  | ResourceExistsError
  | ResourceNotFoundError
  | HttpResponseError          (* any other failure of the backing store *)
  | ValueError (why : value_error)
  | RuntimeError (msg : string)
  | KeyError (key : string)
  | StopIteration.

Inductive Result (A : Type) : Type :=
  | Ok (a : A)
  | Raise (e : exn).
Arguments Ok {A} a.
Arguments Raise {A} e.

(** A table maps (PartitionKey, RowKey) to the entity stored there. *)
Abbreviation Table := (gmap (string * string) dict).

Inductive handle : Type := IndexTable | WalTable.  (* self.table, self.wal *)

(** [faults]: one flag per coming backing-store call, [true] when the call
    fails with an error of the store itself; calls beyond the script succeed.
    [clock n] is the identifier the [n]-th call of [_make_tx_row_key] draws
    (timestamp and uuid4 are inputs of the environment). *)
Record World : Type := mkWorld {
  table : Table;
  wal : Table;
  faults : list bool;
  clock : nat → string;
  ticks : nat
}.

Definition get_table (h : handle) (w : World) : Table :=
  match h with IndexTable => table w | WalTable => wal w end.

Definition set_table (h : handle) (t : Table) (w : World) : World :=
  match h with
  | IndexTable => mkWorld t (wal w) (faults w) (clock w) (ticks w)
  | WalTable => mkWorld (table w) t (faults w) (clock w) (ticks w)
  end.

Definition set_faults (fs : list bool) (w : World) : World :=
  mkWorld (table w) (wal w) fs (clock w) (ticks w).

(** The state-and-exception monad of the client code. *)
Definition M (A : Type) : Type := World → Result A * World.

Definition ret {A} (a : A) : M A := λ w, (Ok a, w).

Definition raise {A} (e : exn) : M A := λ w, (Raise e, w).

Definition bind {A B} (m : M A) (k : A → M B) : M B :=
  λ w, match m w with
       | (Ok a, w') => k a w'
       | (Raise e, w') => (Raise e, w')
       end.

Notation "x <- m ;; k" := (bind m (λ x, k))
  (at level 100, m at next level, right associativity).
Notation "m ;; k" := (bind m (λ _, k))
  (at level 100, right associativity).

(** [try: body except E: handler] for the exception [E] selected by [catches]. *)
Definition try_except {A} (body : M A) (catches : exn → bool) (handler : M A)
  : M A :=
  λ w, match body w with
       | (Raise e, w') => if catches e then handler w' else (Raise e, w')
       | r => r
       end.

(** [for x in l: body(x)] *)
Fixpoint for_each {A} (l : list A) (body : A → M unit) : M unit :=
  match l with
  | [] => ret tt
  | x :: l' => body x ;; for_each l' body
  end.

(** [d[k]] *)
Definition getitem (d : dict) (k : string) : M string :=
  match d !! k with
  | Some v => ret v
  | None => raise (KeyError k)
  end.

Definition is_exists (e : exn) : bool :=
  match e with ResourceExistsError => true | _ => false end.

Definition is_not_found (e : exn) : bool :=
  match e with ResourceNotFoundError => true | _ => false end.

(** ** The backing store (azure.data.tables.TableClient) *)

(** Every call first consults the fault script. *)
Definition store_call : M unit :=
  λ w, match faults w with
       | [] => (Ok tt, w)
       | b :: fs =>
           (if b : bool then Raise HttpResponseError else Ok tt, set_faults fs w)
       end.

(** An entity as the store returns it: its properties under its own keys. *)
Definition stamp (key : string * string) (props : dict) : dict :=
  <["PartitionKey" := key.1]> (<["RowKey" := key.2]> props).

Definition entity_key (entity : dict) : M (string * string) :=
  pk <- getitem entity "PartitionKey" ;;
  rk <- getitem entity "RowKey" ;;
  ret (pk, rk).

(** [create_entity(entity)]: fails when the address is occupied. *)
Definition create_entity (h : handle) (entity : dict) : M unit :=
  store_call ;;
  key <- entity_key entity ;;
  λ w, match get_table h w !! key with
       | Some _ => (Raise ResourceExistsError, w)
       | None => (Ok tt, set_table h (<[key := entity]> (get_table h w)) w)
       end.

(** [upsert_entity(mode='replace', entity=...)]: write or replace. *)
Definition upsert_entity (h : handle) (entity : dict) : M unit :=
  store_call ;;
  key <- entity_key entity ;;
  λ w, (Ok tt, set_table h (<[key := entity]> (get_table h w)) w).

(** [delete_entity(partition_key=pk, row_key=rk)]: fails when absent. *)
Definition delete_entity (h : handle) (pk rk : string) : M unit :=
  store_call ;;
  λ w, match get_table h w !! (pk, rk) with
       | None => (Raise ResourceNotFoundError, w)
       | Some _ => (Ok tt, set_table h (delete (pk, rk) (get_table h w)) w)
       end.

(** [get_entity(partition_key=pk, row_key=rk)] *)
Definition get_entity (h : handle) (pk rk : string) : M dict :=
  store_call ;;
  λ w, match get_table h w !! (pk, rk) with
       | None => (Raise ResourceNotFoundError, w)
       | Some props => (Ok (stamp (pk, rk) props), w)
       end.

(** The OData filters the client writes: [PartitionKey eq 'pk'] followed by
    [and RowKey op 'bound'] conjuncts; strings compare by code point. *)
Inductive rk_op : Type := Gt | Ge | Le.

Definition odata : Type := string * list (rk_op * string).

Definition rk_test (rk : string) (c : rk_op * string) : bool :=
  match c.1 with
  | Gt => String.ltb c.2 rk
  | Ge => String.leb c.2 rk
  | Le => String.leb rk c.2
  end.

Definition matches (q : odata) (key : string * string) : bool :=
  bool_decide (key.1 = q.1) && forallb (rk_test key.2) q.2.

(** Rows come back in ascending RowKey order within the partition. *)
Definition row_le (a b : (string * string) * dict) : Prop :=
  String.le a.1.2 b.1.2.

Global Instance row_le_dec : RelDecision row_le.
Proof. intros a b. unfold row_le. apply _. Defined.

Definition scan (q : odata) (t : Table) : list ((string * string) * dict) :=
  merge_sort row_le (filter (λ kv, matches q kv.1 = true) (map_to_list t)).

(** [list(query_entities(filter))] *)
Definition query_entities (h : handle) (q : odata) : M (list dict) :=
  store_call ;;
  λ w, (Ok ((λ kv, stamp kv.1 kv.2) <$> scan q (get_table h w)), w).

(** *** The filter text

    The filters the client sends are texts of the form
    [PartitionKey eq 'lit'] followed by conjuncts [ and RowKey op 'lit']
    with [op] one of [gt], [ge], [le].  Within a literal a doubled quote
    stands for one quote, and a single quote ends the literal. *)

(** [drop_prefix p s]: the rest of [s] after its prefix [p]. *)
Fixpoint drop_prefix (p s : string) : option string :=
  match p with
  | EmptyString => Some s
  | String a p' =>
      match s with
      | String b s' => if Ascii.eqb a b then drop_prefix p' s' else None
      | EmptyString => None
      end
  end.

(** A literal after its opening quote: its value and the text after its
    closing quote. *)
Fixpoint read_literal (s : string) : option (string * string) :=
  match s with
  | EmptyString => None
  | String c s' =>
      if Ascii.eqb c "'" then
        match s' with
        | String c' s'' =>
            if Ascii.eqb c' "'" then
              (λ r, (String "'" r.1, r.2)) <$> read_literal s''
            else Some (EmptyString, s')
        | EmptyString => Some (EmptyString, EmptyString)
        end
      else (λ r, (String c r.1, r.2)) <$> read_literal s'
  end.

(** A comparison operator followed by the opening quote of its literal. *)
Definition read_op (s : string) : option (rk_op * string) :=
  match drop_prefix "gt '" s, drop_prefix "ge '" s, drop_prefix "le '" s with
  | Some r, _, _ => Some (Gt, r)
  | _, Some r, _ => Some (Ge, r)
  | _, _, Some r => Some (Le, r)
  | _, _, _ => None
  end.

(** The conjuncts on the row key, to the end of the text. *)
Fixpoint read_bounds (fuel : nat) (s : string)
  : option (list (rk_op * string)) :=
  match s, fuel with
  | EmptyString, _ => Some []
  | _, O => None
  | _, S n =>
      r ← drop_prefix " and RowKey " s;
      o ← read_op r;
      l ← read_literal o.2;
      bs ← read_bounds n l.2;
      Some ((o.1, l.1) :: bs)
  end.

(** The store's reading of a filter text. *)
Definition parse_filter (text : string) : option odata :=
  r ← drop_prefix "PartitionKey eq '" text;
  l ← read_literal r;
  bs ← read_bounds (String.length text) l.2;
  Some (l.1, bs).

(** [list(query_entities(text))] for a filter given as text: a text the
    store cannot read is a failed request. *)
Definition query_entities_text (h : handle) (text : string) : M (list dict) :=
  match parse_filter text with
  | Some q => query_entities h q
  | None => store_call ;; raise HttpResponseError
  end.

(** [_make_tx_row_key()] *)
Definition _make_tx_row_key : M string :=
  λ w, (Ok (clock w (ticks w)),
        mkWorld (table w) (wal w) (faults w) (clock w) (S (ticks w))).

(** ** The client: [class TableCatalogClient] *)

(** The schema attributes of the client.  [_index_keys] and [_row_key] are
    only read after [_require_schema], so their initial [None] is never
    observed and they are kept as plain values. *)
Record TableCatalogClient : Type := mkClient {
  self_index_keys : list string;      (* self._index_keys *)
  self_row_key : string;              (* self._row_key *)
  self_schema_locked : bool           (* self._schema_locked *)
}.

Definition unconfigured : TableCatalogClient := mkClient [] "" false.

(** [configure(index_keys, row_key)], for [index_keys] given as a list. *)
Definition configure (self : TableCatalogClient)
    (index_keys : list string) (row_key : string)
  : Result TableCatalogClient :=
  if self_schema_locked self then
    Raise (RuntimeError "Schema is already configured and locked.")
  else if bool_decide (index_keys = []) || bool_decide (row_key = "") then
    Raise (ValueError SchemaIncomplete)
  else Ok (mkClient index_keys row_key true).

Module Client.
Section methods.

Variable self : TableCatalogClient.

Definition _require_schema : M unit :=
  if self_schema_locked self then ret tt
  else raise (RuntimeError "Schema is not configured.").

(** [_validate_filter(filter)]; a filter is the item list of a dict. *)
Definition _validate_filter (filter : list (string * string))
  : M (string * string) :=
  match filter with
  | [(field, value)] =>
      if bool_decide (field ∈ self_index_keys self) then ret (field, value)
      else raise (ValueError (UnknownField field))
  | _ => raise (ValueError FilterNotOneKey)
  end.

(** Truthiness of an optional string argument: [if row_from:]. *)
Definition truthy (s : option string) : option string :=
  match s with
  | Some s' => if bool_decide (s' = "") then None else Some s'
  | None => None
  end.

(** The row bounds of [query] as the store reads them back from a filter
    text whose literals hold no quote. *)
Definition row_bounds (row_from row_to : option string)
  : list (rk_op * string) :=
  match truthy row_from with
  | Some f => [(Ge, Py.lower f +:+ ":")]
  | None => []
  end ++
  match truthy row_to with
  | Some t => [(Le, Py.lower t +:+ ":z")]
  | None => []
  end.

(** The filter text of [query]: the partition key and the lower-cased
    bounds spliced between quotes. *)
Definition filter_text (pk : string) (row_from row_to : option string)
  : string :=
  ("PartitionKey eq '" +:+ pk +:+ "'")
  +:+ match truthy row_from with
      | Some f => " and RowKey ge '" +:+ Py.lower f +:+ ":'"
      | None => ""
      end
  +:+ match truthy row_to with
      | Some t => " and RowKey le '" +:+ Py.lower t +:+ ":z'"
      | None => ""
      end.

(** The first predicate of [query]: validation, the filter text, one
    partition scan and the stripping of the hits. *)
Definition query_first (fv : string * string)
    (row_from row_to : option string) : M (list dict) :=
  fv' <- _validate_filter [fv] ;;
  let odata := filter_text (_partition_key fv'.1 fv'.2) row_from row_to in
  entities <- query_entities_text IndexTable odata ;;
  ret (_entity_to_payload <$> entities).

(** [self.query({field: value}, ...)]: the recursive call of [query] on a
    one-entry filter, whose own loop over the remaining items is empty. *)
Definition query_single (fv : string * string)
    (row_from row_to : option string) : M (list dict) :=
  _require_schema ;;
  query_first fv row_from row_to.

(** The loop of [query] over the remaining items. *)
Fixpoint query_rest (items : list (string * string))
    (row_from row_to : option string) (results : list dict)
  : M (list dict) :=
  match items with
  | [] => ret results
  | fv :: items' =>
      match results with
      | [] => ret results                                  (* break *)
      | _ =>
          found <- query_single fv row_from row_to ;;
          query_rest items' row_from row_to
            (filter (λ r, r ∈ found) results)
      end
  end.

(** [query(filter, row_from=..., row_to=...)] *)
Definition query (filter : list (string * string))
    (row_from row_to : option string) : M (list dict) :=
  _require_schema ;;
  match filter with
  | [] => raise StopIteration                              (* next(items) *)
  | fv :: items =>
      results <- query_first fv row_from row_to ;;
      query_rest items row_from row_to results
  end.

(** [_write_wal(operation, payload)] *)
Definition _write_wal (operation : string) (payload : dict) : M string :=
  row_key <- _make_tx_row_key ;;
  let entity :=
    spread [("PartitionKey", "wal"); ("RowKey", row_key);
            ("operation", operation)] payload in
  create_entity WalTable entity ;;
  ret row_key.

(** The content key of a payload: [_row_key(payload,
    str(payload[self._row_key]), self._index_keys)]. *)
Definition content_key (payload : dict) : M string :=
  pv <- getitem payload (self_row_key self) ;;
  match _row_key payload pv (self_index_keys self) with
  | inl k => raise (KeyError k)
  | inr rk => ret rk
  end.

(** [_apply_insert(payload)] *)
Definition _apply_insert (payload : dict) : M unit :=
  rk <- content_key payload ;;
  for_each (self_index_keys self) (λ key,
    v <- getitem payload key ;;
    let pk := _partition_key key v in
    try_except
      (create_entity IndexTable
         (spread [("PartitionKey", pk); ("RowKey", rk)] payload))
      is_exists (ret tt)).

(** [_apply_delete(payload)] *)
Definition _apply_delete (payload : dict) : M unit :=
  rk <- content_key payload ;;
  for_each (self_index_keys self) (λ key,
    v <- getitem payload key ;;
    let pk := _partition_key key v in
    try_except (delete_entity IndexTable pk rk) is_not_found (ret tt)).

(** Where replay starts: the argument, else the stored checkpoint, else
    the default. *)
Definition start_of (start_time : option string) : M string :=
  match truthy start_time with
  | Some s => ret s
  | None =>
      try_except
        (entity <- get_entity WalTable "metadata" "checkpoint" ;;
         getitem entity "datetime")
        is_not_found (ret "1900-01-01")
  end.

(** The application of one WAL entry: the branch on its operation tag. *)
Definition apply_entry (orphan : dict) : M unit :=
  op <- getitem orphan "operation" ;;
  let payload := _entity_to_payload orphan in
  if bool_decide (op = "insert") then _apply_insert payload
  else if bool_decide (op = "delete") then _apply_delete payload
  else ret tt.

(** "Advance Checkpoint" *)
Definition advance_checkpoint (orphan : dict) : M unit :=
  id <- getitem orphan "RowKey" ;;
  upsert_entity WalTable
    (list_to_map [("PartitionKey", "metadata"); ("RowKey", "checkpoint");
                  ("datetime", id)]).

(** The body of the loop of [recover]. *)
Definition replay (orphan : dict) : M unit :=
  apply_entry orphan ;;
  advance_checkpoint orphan.

(** [recover(start_time)] *)
Definition recover (start_time : option string) : M unit :=
  start <- start_of start_time ;;
  orphans <- query_entities WalTable ("wal", [(Gt, start)]) ;;
  for_each orphans replay.

(** [insert(record)] *)
Definition insert (record : dict) : M dict :=
  _require_schema ;;
  let missing :=
    filter (λ k, record !! k = None)
           (self_index_keys self ++ [self_row_key self]) in
  match missing with
  | _ :: _ => raise (ValueError (MissingFields missing))
  | [] =>
      _write_wal "insert" record ;;
      recover None ;;
      ret record
  end.

(** [delete(filter, row_from=..., row_to=...)] *)
Definition delete (filter : list (string * string))
    (row_from row_to : option string) : M unit :=
  _require_schema ;;
  records <- query filter row_from row_to ;;
  for_each records (λ record, _write_wal "delete" record ;; ret tt) ;;
  recover None.

End methods.
End Client.

(** ** Observations on a state *)

(** The stored checkpoint identifier, if any. *)
Definition checkpoint (w : World) : option string :=
  wal w !! ("metadata", "checkpoint") ≫= (.!! "datetime").

(** A world whose store accepts every call. *)
Definition world0 (t wl : Table) (ids : nat → string) : World :=
  mkWorld t wl [] ids 0.

(** ** Vocabulary of the statements *)

(** A payload as replay hands it to the apply functions: what
    [_entity_to_payload] returns carries no storage key. *)
Definition stripped (p : dict) : Prop :=
  p !! "PartitionKey" = None ∧ p !! "RowKey" = None.

(** The entity [{"PartitionKey": pk, "RowKey": rk, **payload}]. *)
Definition index_entity (payload : dict) (pk rk : string) : dict :=
  spread [("PartitionKey", pk); ("RowKey", rk)] payload.

(** Create unless the address is occupied. *)
Definition put_if_absent (key : string * string) (e : dict) (t : Table)
  : Table :=
  match t !! key with
  | Some _ => t
  | None => <[key := e]> t
  end.

(** What the loops of [_apply_insert] and [_apply_delete] do to the index
    table when no call of the store fails. *)
Definition insert_rows (payload : dict) (rk : string) (keys : list string)
    (t : Table) : Table :=
  foldl (λ t key,
           match payload !! key with
           | Some v =>
               let pk := _partition_key key v in
               put_if_absent (pk, rk) (index_entity payload pk rk) t
           | None => t
           end) t keys.

(** The same for [_apply_delete]. *)
Definition delete_rows (payload : dict) (rk : string) (keys : list string)
    (t : Table) : Table :=
  foldl (λ t key,
           match payload !! key with
           | Some v => base.delete (_partition_key key v, rk) t
           | None => t
           end) t keys.

(** The addresses the loops visit: one per index key the payload has. *)
Definition targets (payload : dict) (rk : string) (keys : list string)
  : list (string * string) :=
  omap (λ key, (λ v, (_partition_key key v, rk)) <$> payload !! key) keys.

(** The content key as a value: [Client.content_key] reads no state. *)
Definition content_key_of (self : TableCatalogClient) (payload : dict)
  : Result string :=
  match payload !! self_row_key self with
  | None => Raise (KeyError (self_row_key self))
  | Some pv =>
      match _row_key payload pv (self_index_keys self) with
      | inl k => Raise (KeyError k)
      | inr rk => Ok rk
      end
  end.

(** The WAL entity [_write_wal] stores for [payload] under [id]. *)
Definition wal_entry (id op : string) (payload : dict) : dict :=
  spread [("PartitionKey", "wal"); ("RowKey", id); ("operation", op)] payload.


(** The characters of a string. *)
Fixpoint chars (s : string) : list ascii :=
  match s with
  | EmptyString => []
  | String c s' => c :: chars s'
  end.

(** A string without the quote character, which ends a literal of the
    filter text. *)
Definition quote_free (s : string) : Prop := "'"%char ∉ chars s.

(** A string on which the model and Python agree throughout: ASCII, so that
    [lower] and [len] are bytewise, and quote-free, so that the filter text
    reads back as it was meant. *)
Definition plain (s : string) : Prop := Py.isascii s = true ∧ quote_free s.


(** The world an operation leaves behind. *)
Definition after {A} (m : M A) (w : World) : World := (m w).2.





(** A computation that leaves the WAL table, checkpoint included, alone. *)
Definition keeps_wal {A} (m : M A) : Prop :=
  ∀ w r w', m w = (r, w') → wal w' = wal w.

(** ** The statements of the specification that fail on the code *)

(** The statement on the round trip: after [insert(R)], the query on an
    index key of [R] returns a list containing the payload of [R], the
    fields of the record with the storage metadata stripped. *)
Definition round_trip (self : TableCatalogClient) (R : dict) (k : string)
    (w : World) : Prop :=
  ∀ v w1 rs w2,
    R !! k = Some v →
    Client.insert self R w = (Ok R, w1) →
    Client.query self [(k, v)] None None w1 = (Ok rs, w2) →
    _entity_to_payload R ∈ rs.


(** The statement on unknown filter fields: every field of the filter that
    is outside the index-key set makes [query] fail with [UnknownField]. *)
Definition rejects_unknown_fields (self : TableCatalogClient)
    (filter : list (string * string)) (w : World) : Prop :=
  ∀ f, f ∈ filter.*1 → f ∉ self_index_keys self →
       ∃ w', Client.query self filter None None w
             = (Raise (ValueError (UnknownField f)), w').

(** The statement on row bounds, for rows the client wrote (content key
    [pv:fp]): a stored row of the scanned partition whose primary value
    lies between [row_from] and [row_to] is returned. *)
Definition bounds_by_primary_value (self : TableCatalogClient)
    (field value row_from row_to : string) (w : World) : Prop :=
  ∀ rs pv fp e,
    (Client.query self [(field, value)] (Some row_from) (Some row_to) w).1
      = Ok rs →
    table w !! (_partition_key field value, pv +:+ ":" +:+ fp) = Some e →
    String.le row_from pv → String.le pv row_to →
    _entity_to_payload e ∈ rs.


(** ** Scenarios *)

(** The schema of the worked example: [indexKeys = ["email", "team"]],
    [primary = "userId"]. *)
Definition team_client : TableCatalogClient :=
  mkClient ["email"; "team"] "userId" true.

(** Identifiers drawn by successive WAL appends: ["2026-01-01"], ... *)
Definition day_ids (n : nat) : string := "2026-01-0" +:+ Py.str_nat (S n).

(** The empty store, accepting every call. *)
Definition empty_world : World := world0 ∅ ∅ day_ids.

(** A user record of the worked example. *)
Definition user (id email team : string) : dict :=
  list_to_map [("userId", id); ("email", email); ("team", team)].

(** The record of the worked example. *)
Definition u1 : dict := user "u1" "a@x.com" "eng".

(** A second user of the same team. *)
Definition u2 : dict := user "u2" "b@x.com" "eng".

(** A record with one more field, which is no index key. *)
Definition named (name : string) (r : dict) : dict := <["name" := name]> r.

(** A record whose [operation] field names the other operation. *)
Definition eraser : dict := <["operation" := "delete"]> u1.


(** Two inserts logged but not yet replayed. *)
Definition logged : World :=
  after (Client._write_wal "insert" u1 ;; Client._write_wal "insert" u2)
    empty_world.

(** The store fails the sixth call: the first create of the second entry. *)
Definition failing_second : World :=
  set_faults [false; false; false; false; false; true] logged.


(** Users [u1], [u10] and [u2] of one team. *)
Definition three_users : World :=
  after (Client.insert team_client (user "u1" "u1@x.com" "eng") ;;
         Client.insert team_client (user "u10" "u10@x.com" "eng") ;;
         Client.insert team_client (user "u2" "u2@x.com" "eng"))
    empty_world.




(** ** Configuration: string schemas, the environment, construction *)

(** More string built-ins. *)
Module Str.

(** [c.isspace()] for one ASCII character. *)
Definition is_space (c : ascii) : bool :=
  let n := N_of_ascii c in
  (((9 <=? n) && (n <=? 13)) || ((28 <=? n) && (n <=? 32)))%N.

(** [s.lstrip()], [s.rstrip()], [s.strip()]. *)
Fixpoint lstrip (s : string) : string :=
  match s with
  | EmptyString => EmptyString
  | String c s' => if is_space c then lstrip s' else s
  end.

Fixpoint rstrip (s : string) : string :=
  match s with
  | EmptyString => EmptyString
  | String c s' =>
      match rstrip s' with
      | EmptyString => if is_space c then EmptyString else String c EmptyString
      | r => String c r
      end
  end.

Definition strip (s : string) : string := rstrip (lstrip s).

(** [s.split(",")]: never empty, [""] for the empty string. *)
Fixpoint split_comma (s : string) : list string :=
  match s with
  | EmptyString => [EmptyString]
  | String c s' =>
      if Ascii.eqb c "," then EmptyString :: split_comma s'
      else match split_comma s' with
           | x :: xs => String c x :: xs
           | [] => [String c EmptyString]
           end
  end.

End Str.

(** [[k.strip() for k in index_keys.split(",") if k.strip()]] *)
Definition parse_index_keys (index_keys : string) : list string :=
  filter (λ k, k ≠ "") (Str.strip <$> Str.split_comma index_keys).

(** [configure(index_keys, row_key)] for both forms of [index_keys]: a
    comma-separated string ([inl]) or a list ([inr]). *)
Definition configure_any (self : TableCatalogClient)
    (index_keys : string + list string) (row_key : string)
  : Result TableCatalogClient :=
  configure self
    match index_keys with
    | inl s => parse_index_keys s
    | inr l => l
    end row_key.

(** What construction can raise: [EnvironmentError] of [_get_env], or an
    exception of the client code. *)
Inductive init_error : Type :=
  | EnvironmentError (name : string)
      (* Required environment variable '{name}' is not set. *)
  | Raised (e : exn).

(** [_get_env(name, default)] over [os.environ]. *)
Definition _get_env (environ : dict) (name : string) (default : option string)
  : init_error + string :=
  match Client.truthy (environ !! name) with
  | Some value => inr value
  | None =>
      match default with
      | Some d => inr d
      | None => inl (EnvironmentError name)
      end
  end.

(** [arg or _get_env(name, default)] *)
Definition or_env (environ : dict) (arg : option string) (name : string)
    (default : option string) : init_error + string :=
  match Client.truthy arg with
  | Some a => inr a
  | None => _get_env environ name default
  end.

(** Truthiness of the [index_keys] argument. *)
Definition truthy_keys (index_keys : option (string + list string))
  : option (string + list string) :=
  match index_keys with
  | Some (inl s) => if bool_decide (s = "") then None else Some (inl s)
  | Some (inr l) => if bool_decide (l = []) then None else Some (inr l)
  | None => None
  end.

Definition and_then {A B} (r : init_error + A) (k : A → init_error + B)
  : init_error + B :=
  match r with
  | inl e => inl e
  | inr a => k a
  end.

(** What [__init__] resolves: the three names it hands to the Azure SDK
    ([TableServiceClient.from_connection_string],
    [create_table_if_not_exists]) and the configured schema. *)
Record Constructed : Type := mkConstructed {
  connection_string : string;
  table_name : string;
  wal_name : string;
  client : TableCatalogClient
}.

(** What the three SDK calls that end [__init__] do: each one returns, or
    raises the exception given here. The service decides; the client has no
    handler around any of them. *)
Record SdkOutcome : Type := mkSdkOutcome {
  from_connection_string : option exn;
  create_table : option exn;
  create_wal : option exn
}.

(** The first part of [__init__], up to [self.configure(index_keys,
    row_key)]: the names and the schema taken from the arguments or from
    the environment. *)
Definition init (environ : dict)
    (connection_string table_name wal_name : option string)
    (index_keys : option (string + list string)) (row_key : option string)
  : init_error + Constructed :=
  and_then (or_env environ connection_string
              "AZURE_STORAGE_CONNECTION_STRING" None) (λ cs,
  and_then (or_env environ table_name "TABLE_CATALOG_NAME" None) (λ tn,
  and_then (or_env environ wal_name "TABLE_CATALOG_WAL_NAME"
              (Some (tn +:+ "_WAL"))) (λ wn,
  and_then (match truthy_keys index_keys with
            | Some ik => inr ik
            | None =>
                and_then (_get_env environ "TABLE_CATALOG_INDEX_KEYS" None)
                         (λ s, inr (inl s))
            end) (λ ik,
  and_then (or_env environ row_key "TABLE_CATALOG_ROW_KEY" None) (λ rk,
  match configure_any unconfigured ik rk with
  | Ok c => inr (mkConstructed cs tn wn c)
  | Raise e => inl (Raised e)
  end))))).

(** [TableCatalogClient.__init__(connection_string, table_name, wal_name,
    index_keys, row_key)]: the names and the schema, then
    [TableServiceClient.from_connection_string(connection_string)],
    [create_table_if_not_exists(table_name)] and
    [create_table_if_not_exists(wal_name)], in this order. *)
Definition __init__ (sdk : SdkOutcome) (environ : dict)
    (connection_string table_name wal_name : option string)
    (index_keys : option (string + list string)) (row_key : option string)
  : init_error + Constructed :=
  and_then (init environ connection_string table_name wal_name
              index_keys row_key) (λ c,
  match from_connection_string sdk with
  | Some e => inl (Raised e)
  | None =>
      match create_table sdk with
      | Some e => inl (Raised e)
      | None =>
          match create_wal sdk with
          | Some e => inl (Raised e)
          | None => inr c
          end
      end
  end).

(** The module-level singleton [_client] and its two writers. *)
Definition _get_client (sdk : SdkOutcome) (environ : dict)
    (_client : option Constructed)
  : (init_error + Constructed) * option Constructed :=
  match _client with
  | Some c => (inr c, _client)
  | None =>
      match __init__ sdk environ None None None None None with
      | inr c => (inr c, Some c)
      | inl e => (inl e, None)
      end
  end.

(** Module-level [configure(index_keys, row_key, **kwargs)]. *)
Definition module_configure (sdk : SdkOutcome) (environ : dict)
    (_client : option Constructed)
    (index_keys : string + list string) (row_key : string)
    (connection_string table_name wal_name : option string)
  : (init_error + unit) * option Constructed :=
  match _client with
  | Some _ => (inl (Raised (RuntimeError "Catalog already initialized.")),
               _client)
  | None =>
      match __init__ sdk environ connection_string table_name wal_name
              (Some index_keys) (Some row_key) with
      | inr c => (inr tt, Some c)
      | inl e => (inl e, None)
      end
  end.

(** Module-level [query], [insert], [delete], [recover]: the method of the
    singleton client. *)
Definition with_client {A} (sdk : SdkOutcome) (environ : dict)
    (_client : option Constructed) (method : TableCatalogClient → M A)
  : (init_error + M A) * option Constructed :=
  match _get_client sdk environ _client with
  | (inr c, st) => (inr (method (client c)), st)
  | (inl e, st) => (inl e, st)
  end.

(** ** Vocabulary of the further properties *)

(** A computation that changes neither table. *)
Definition read_only {A} (m : M A) : Prop :=
  ∀ w r w', m w = (r, w') → table w' = table w ∧ wal w' = wal w.

(** A computation whose exceptions all satisfy [P]. *)
Definition raises_only {A} (P : exn → Prop) (m : M A) : Prop :=
  ∀ w e w', m w = (Raise e, w') → P e.

(** A hexadecimal digit as [hexdigest] writes it. *)
Definition is_hex (c : ascii) : bool :=
  let n := N_of_ascii c in
  (((48 <=? n) && (n <=? 57)) || ((97 <=? n) && (n <=? 102)))%N.

(** A key as [parse_index_keys] leaves it: not empty, without comma and
    without white space at either end. *)
Definition clean_key (k : string) : Prop :=
  k ≠ "" ∧ (","%char ∉ chars k) ∧ Str.strip k = k.

(** An environment that sets every variable construction reads. *)
Definition full_env : dict :=
  list_to_map [("AZURE_STORAGE_CONNECTION_STRING", "UseDevelopmentStorage=true");
               ("TABLE_CATALOG_NAME", "catalog");
               ("TABLE_CATALOG_INDEX_KEYS", "email, team");
               ("TABLE_CATALOG_ROW_KEY", "userId")].

(** A string that is empty or starts with a character that is no white
    space, as [lstrip] leaves it. *)
Definition no_leading_space (s : string) : Prop :=
  match s with
  | EmptyString => True
  | String c _ => Str.is_space c = false
  end.

(** Two ASCII filters with the same fields whose values agree up to letter
    case. *)
Definition same_filter_up_to_case (f1 f2 : list (string * string)) : Prop :=
  Forall2 (λ a b, a.1 = b.1 ∧ Py.lower a.2 = Py.lower b.2
                  ∧ Py.isascii a.1 = true ∧ Py.isascii a.2 = true
                  ∧ Py.isascii b.2 = true) f1 f2.

(** Two ASCII row bounds that agree up to letter case: both absent or
    empty, or both given and equal after lower-casing. *)
Definition same_bound_up_to_case (b1 b2 : option string) : Prop :=
  Py.lower <$> Client.truthy b1 = Py.lower <$> Client.truthy b2
  ∧ (∀ x, Client.truthy b1 = Some x → Py.isascii x = true)
  ∧ (∀ x, Client.truthy b2 = Some x → Py.isascii x = true).

(** The exceptions [query] can raise for a filter. *)
Definition query_error (self : TableCatalogClient)
    (filter : list (string * string)) (e : exn) : Prop :=
  (self_schema_locked self = false ∧ e = RuntimeError "Schema is not configured.")
  ∨ (filter = [] ∧ e = StopIteration)
  ∨ (∃ f, (f ∈ filter.*1) ∧ (f ∉ self_index_keys self)
          ∧ e = ValueError (UnknownField f))
  ∨ e = HttpResponseError.

(** The address at which [_write_wal] creates its entity: the fixed
    [wal] partition and the drawn identifier, unless the payload has a
    [PartitionKey] or [RowKey] field of its own. *)
Definition wal_address (id : string) (payload : dict) : string * string :=
  (default "wal" (payload !! "PartitionKey"), default id (payload !! "RowKey")).

(** The exceptions [recover] can raise. *)
Definition recover_error (e : exn) : Prop :=
  e = HttpResponseError ∨ ∃ k, e = KeyError k.

(** A computation that leaves every logged entry as it is (it may write the
    checkpoint) and draws no identifier. *)
Definition keeps_log {A} (m : M A) : Prop :=
  ∀ w r w', m w = (r, w') →
    (∀ key, key ≠ ("metadata", "checkpoint") → wal w' !! key = wal w !! key)
    ∧ clock w' = clock w ∧ ticks w' = ticks w.

(** The exceptions [insert] can raise for a record. *)
Definition insert_error (self : TableCatalogClient) (record : dict) (e : exn)
  : Prop :=
  (self_schema_locked self = false ∧ e = RuntimeError "Schema is not configured.")
  ∨ (∃ m, m ≠ []
          ∧ m = filter (λ k, record !! k = None)
                  (self_index_keys self ++ [self_row_key self])
          ∧ e = ValueError (MissingFields m))
  ∨ e = ResourceExistsError
  ∨ recover_error e.

(** The row a query returns for what replay stores at [(pk, rk)] when it
    applies, as an insert, the entry logged for [R] under [id] with tag
    [op] and read back at [key]. *)
Definition stored_row (key : string * string) (id op : string) (R : dict)
    (pk rk : string) : dict :=
  _entity_to_payload
    (stamp (pk, rk)
       (index_entity (_entity_to_payload (stamp key (wal_entry id op R)))
          pk rk)).






(** ** The embedding on known values *)

Example md5_empty :
  hashlib.md5_hexdigest (hashlib.encode "") = "d41d8cd98f00b204e9800998ecf8427e".
Proof. vm_compute. reflexivity. Qed.

Example md5_abc :
  hashlib.md5_hexdigest (hashlib.encode "abc") = "900150983cd24fb0d6963f7d28e17f72".
Proof. vm_compute. reflexivity. Qed.

Example md5_two_blocks :
  hashlib.md5_hexdigest (hashlib.encode
    "12345678901234567890123456789012345678901234567890123456789012345678901234567890")
  = "57edf4a22be3c955ac49da2e2107b67a".
Proof. vm_compute. reflexivity. Qed.

Example partition_key_email :
  _partition_key "Email" "A@x.com" = "5_emaila@x.com".
Proof. vm_compute. reflexivity. Qed.

(** ** Strings: append, lower-casing, decimal numerals *)
Section strings.

Lemma app_nil_l (t : string) : "" +:+ t = t.
Proof. reflexivity. Qed.

Lemma app_cons (c : ascii) (s t : string) :
  String c s +:+ t = String c (s +:+ t).
Proof. reflexivity. Qed.

Lemma app_assoc' (a b c : string) : (a +:+ b) +:+ c = a +:+ (b +:+ c).
Proof.
  induction a as [|x a IH]; [reflexivity|].
  rewrite !app_cons, IH. reflexivity.
Qed.

Lemma app_length (a b : string) :
  String.length (a +:+ b) = (String.length a + String.length b)%nat.
Proof.
  induction a as [|x a IH]; [reflexivity|].
  rewrite app_cons. simpl. rewrite IH. reflexivity.
Qed.

(** Two splittings of one string at the same position agree. *)
Lemma app_eq_inv (a1 b1 a2 b2 : string) :
  String.length a1 = String.length a2 →
  a1 +:+ b1 = a2 +:+ b2 → a1 = a2 ∧ b1 = b2.
Proof.
  revert a2. induction a1 as [|x a1 IH]; intros [|y a2] Hlen Heq;
    simpl in Hlen; try discriminate.
  - rewrite !app_nil_l in Heq. auto.
  - rewrite !app_cons in Heq. injection Heq as -> Heq.
    destruct (IH a2) as [-> ->]; auto.
Qed.

Lemma lower_app (a b : string) :
  Py.lower (a +:+ b) = Py.lower a +:+ Py.lower b.
Proof.
  induction a as [|x a IH]; [reflexivity|].
  rewrite app_cons. simpl. rewrite IH, app_cons. reflexivity.
Qed.

Lemma lower_length (s : string) :
  String.length (Py.lower s) = String.length s.
Proof. induction s as [|x s IH]; simpl; congruence. Qed.

Lemma lower_ascii_idemp (c : ascii) :
  Py.lower_ascii (Py.lower_ascii c) = Py.lower_ascii c.
Proof. destruct c as [[] [] [] [] [] [] [] []]; reflexivity. Qed.

Lemma lower_idemp (s : string) : Py.lower (Py.lower s) = Py.lower s.
Proof.
  induction s as [|x s IH]; simpl; [reflexivity|].
  rewrite lower_ascii_idemp, IH. reflexivity.
Qed.

(** Decimal numerals contain no letter, so [lower] leaves them alone. *)
Lemma lower_numeral (d : Decimal.uint) :
  Py.lower (NilEmpty.string_of_uint d) = NilEmpty.string_of_uint d.
Proof. induction d; simpl; try rewrite IHd; reflexivity. Qed.

(** A numeral followed by an underscore can be read back: the numerals
    are a prefix-free code in front of ["_"]. *)
Lemma numeral_prefix_free (d1 d2 : Decimal.uint) (x y : string) :
  NilEmpty.string_of_uint d1 +:+ String "_" x
  = NilEmpty.string_of_uint d2 +:+ String "_" y →
  d1 = d2 ∧ x = y.
Proof.
  revert d2. induction d1; intros d2 H; destruct d2; simpl in H;
    rewrite ?app_nil_l, ?app_cons in H; try discriminate;
    try (injection H as H; destruct (IHd1 _ H) as [-> ->]; auto).
  injection H as ->. auto.
Qed.

Lemma str_nat_inj (n m : nat) : Py.str_nat n = Py.str_nat m → n = m.
Proof.
  unfold Py.str_nat. intros H.
  apply DecimalNat.Unsigned.to_uint_inj.
  assert (Hx : NilEmpty.string_of_uint (Nat.to_uint n) +:+ String "_" ""
             = NilEmpty.string_of_uint (Nat.to_uint m) +:+ String "_" "")
    by (rewrite H; reflexivity).
  apply numeral_prefix_free in Hx. tauto.
Qed.

End strings.

(** ** The partition key is injective up to letter case *)
Section partition_key.

Lemma partition_key_unfold (f v : string) :
  _partition_key f v
  = Py.str_nat (String.length f) +:+ String "_" (Py.lower f +:+ Py.lower v).
Proof.
  unfold _partition_key, Py.str_nat.
  rewrite !lower_app, lower_numeral. reflexivity.
Qed.

Lemma partition_key_inj (f1 v1 f2 v2 : string) :
  _partition_key f1 v1 = _partition_key f2 v2 →
  Py.lower f1 = Py.lower f2 ∧ Py.lower v1 = Py.lower v2.
Proof.
  rewrite !partition_key_unfold. unfold Py.str_nat. intros H.
  apply numeral_prefix_free in H as [Hd H].
  apply DecimalNat.Unsigned.to_uint_inj in Hd.
  apply app_eq_inv in H; [exact H|].
  rewrite !lower_length. exact Hd.
Qed.

Lemma partition_key_same_case (f1 v1 f2 v2 : string) :
  Py.lower f1 = Py.lower f2 → Py.lower v1 = Py.lower v2 →
  _partition_key f1 v1 = _partition_key f2 v2.
Proof.
  intros Hf Hv. rewrite !partition_key_unfold, Hf, Hv.
  do 2 f_equal. rewrite <- (lower_length f1), <- (lower_length f2), Hf.
  reflexivity.
Qed.

End partition_key.

(** C7. Partition-key collision resistance: whenever two different
    (field, value) pairs have the same naive concatenation [field + value],
    their length-prefixed partition keys are different strings. *)
Theorem partition_key_collision_resistant (f1 v1 f2 v2 : string) :
  (f1, v1) ≠ (f2, v2) →
  f1 +:+ v1 = f2 +:+ v2 →
  _partition_key f1 v1 ≠ _partition_key f2 v2.
Proof.
  intros Hne Hcat Hpk.
  apply partition_key_inj in Hpk as [Hf _].
  apply Hne.
  assert (Hlen : String.length f1 = String.length f2)
    by (rewrite <- (lower_length f1), <- (lower_length f2), Hf; reflexivity).
  destruct (app_eq_inv _ _ _ _ Hlen Hcat) as [-> ->]. reflexivity.
Qed.

Lemma partition_key_collision_resistant_witness :
  "a" +:+ "bc" = "ab" +:+ "c"
  ∧ _partition_key "a" "bc" ≠ _partition_key "ab" "c".
Proof.
  split; [reflexivity|].
  apply (partition_key_collision_resistant "a" "bc" "ab" "c");
    [discriminate | reflexivity].
Defined.

(** ** The monad and the store when no call fails *)
Section semantics.

Lemma set_table_same (h : handle) (w : World) :
  set_table h (get_table h w) w = w.
Proof. destruct w, h; reflexivity. Qed.

Lemma store_call_ok (w : World) : faults w = [] → store_call w = (Ok tt, w).
Proof. unfold store_call. intros ->. reflexivity. Qed.

Lemma store_call_fault (w : World) (fs : list bool) :
  faults w = true :: fs → store_call w = (Raise HttpResponseError, set_faults fs w).
Proof. unfold store_call. intros ->. reflexivity. Qed.

Lemma bind_ok {A B} (m : M A) (k : A → M B) (w w' : World) (a : A) :
  m w = (Ok a, w') → bind m k w = k a w'.
Proof. unfold bind. intros ->. reflexivity. Qed.

Lemma bind_raise {A B} (m : M A) (k : A → M B) (w w' : World) (e : exn) :
  m w = (Raise e, w') → bind m k w = (Raise e, w').
Proof. unfold bind. intros ->. reflexivity. Qed.


Lemma lookup_spread_fixed (fixed : list (string * string)) (p : dict)
    (k : string) :
  p !! k = None → spread fixed p !! k = (list_to_map fixed : dict) !! k.
Proof.
  intros H. unfold spread. apply lookup_union_r. exact H.
Qed.

Lemma lookup_spread_payload (fixed : list (string * string)) (p : dict)
    (k v : string) :
  p !! k = Some v → spread fixed p !! k = Some v.
Proof.
  intros H. unfold spread. apply lookup_union_Some_l. exact H.
Qed.

Lemma index_entity_pk (p : dict) (pk rk : string) :
  stripped p → index_entity p pk rk !! "PartitionKey" = Some pk.
Proof. intros [H _]. unfold index_entity. rewrite lookup_spread_fixed by done. reflexivity. Qed.

Lemma index_entity_rk (p : dict) (pk rk : string) :
  stripped p → index_entity p pk rk !! "RowKey" = Some rk.
Proof. intros [_ H]. unfold index_entity. rewrite lookup_spread_fixed by done. reflexivity. Qed.

Lemma entity_to_payload_lookup (e : dict) (k : string) :
  _entity_to_payload e !! k = if bool_decide (k ∈ metadata_keys) then None else e !! k.
Proof.
  unfold _entity_to_payload. case_bool_decide as Hk.
  - apply map_lookup_filter_None. right. intros x _. simpl. tauto.
  - destruct (e !! k) as [x|] eqn:He.
    + apply map_lookup_filter_Some. split; [done|]. exact Hk.
    + apply map_lookup_filter_None. left. done.
Qed.


(** One guarded create of the insert loop. *)
Lemma create_swallow_ok (w : World) (e : dict) (pk rk : string) :
  faults w = [] →
  e !! "PartitionKey" = Some pk → e !! "RowKey" = Some rk →
  try_except (create_entity IndexTable e) is_exists (ret tt) w
  = (Ok tt, set_table IndexTable (put_if_absent (pk, rk) e (table w)) w).
Proof.
  intros Hf Hpk Hrk.
  unfold try_except, create_entity, bind, entity_key, getitem, put_if_absent.
  rewrite store_call_ok by done. rewrite Hpk. unfold ret. rewrite Hrk. simpl.
  destruct (table w !! (pk, rk)); simpl; [|reflexivity].
  unfold ret. f_equal. symmetry. apply (set_table_same IndexTable).
Qed.

(** One guarded delete of the delete loop. *)
Lemma delete_swallow_ok (w : World) (pk rk : string) :
  faults w = [] →
  try_except (delete_entity IndexTable pk rk) is_not_found (ret tt) w
  = (Ok tt, set_table IndexTable (base.delete (pk, rk) (table w)) w).
Proof.
  intros Hf. unfold try_except, delete_entity, bind.
  rewrite store_call_ok by done. simpl.
  destruct (table w !! (pk, rk)) eqn:E; simpl; [reflexivity|].
  unfold ret. f_equal. rewrite delete_id by done.
  symmetry. apply (set_table_same IndexTable).
Qed.

(** A store failure is not one of the swallowed signals. *)
Lemma create_swallow_fault (w : World) (e : dict) (fs : list bool) :
  faults w = true :: fs →
  try_except (create_entity IndexTable e) is_exists (ret tt) w
  = (Raise HttpResponseError, set_faults fs w).
Proof.
  intros Hf. unfold try_except, create_entity, bind.
  rewrite (store_call_fault _ fs) by done. reflexivity.
Qed.

Lemma delete_swallow_fault (w : World) (pk rk : string) (fs : list bool) :
  faults w = true :: fs →
  try_except (delete_entity IndexTable pk rk) is_not_found (ret tt) w
  = (Raise HttpResponseError, set_faults fs w).
Proof.
  intros Hf. unfold try_except, delete_entity, bind.
  rewrite (store_call_fault _ fs) by done. reflexivity.
Qed.

End semantics.

(** ** The apply functions when no call fails *)
Section apply.

Variable self : TableCatalogClient.

Lemma set_table_twice (t t' : Table) (w : World) :
  set_table IndexTable t (set_table IndexTable t' w) = set_table IndexTable t w.
Proof. reflexivity. Qed.

Lemma content_key_eq (p : dict) (w : World) :
  Client.content_key self p w = (content_key_of self p, w).
Proof.
  unfold Client.content_key, content_key_of, bind, getitem.
  destruct (p !! self_row_key self) as [pv|]; simpl; [|reflexivity].
  destruct (_row_key p pv (self_index_keys self)); reflexivity.
Qed.

Lemma index_values_present (p : dict) (ks : list string) (vs : list string) :
  index_values p ks = inr vs → ∀ k, k ∈ ks → is_Some (p !! k).
Proof.
  revert vs. induction ks as [|k0 ks IH]; intros vs H k Hk.
  - inversion Hk.
  - simpl in H. destruct (p !! k0) as [v|] eqn:E; [|discriminate].
    destruct (index_values p ks) as [|vs'] eqn:E'; [discriminate|].
    apply elem_of_cons in Hk as [->|Hk]; [rewrite E; eauto|].
    eapply IH; eauto.
Qed.


Lemma sorted_elem (ks : list string) (k : string) : k ∈ Py.sorted ks ↔ k ∈ ks.
Proof. unfold Py.sorted. rewrite merge_sort_Permutation. reflexivity. Qed.

Lemma content_key_present (p : dict) (rk : string) :
  content_key_of self p = Ok rk →
  ∀ k, k ∈ self_index_keys self → is_Some (p !! k).
Proof.
  unfold content_key_of, _row_key. intros H k Hk.
  destruct (p !! self_row_key self); [|discriminate].
  destruct (index_values p (Py.sorted (self_index_keys self))) eqn:E;
    [discriminate|].
  eapply index_values_present; [exact E|]. apply sorted_elem. exact Hk.
Qed.


Lemma insert_loop_ok (p : dict) (rk : string) (ks : list string) (w : World) :
  faults w = [] → stripped p →
  (∀ k, k ∈ ks → is_Some (p !! k)) →
  for_each ks (λ key,
    v <- getitem p key ;;
    let pk := _partition_key key v in
    try_except
      (create_entity IndexTable
         (spread [("PartitionKey", pk); ("RowKey", rk)] p))
      is_exists (ret tt)) w
  = (Ok tt, set_table IndexTable (insert_rows p rk ks (table w)) w).
Proof.
  intros Hf Hp. revert w Hf.
  induction ks as [|k ks IH]; intros w Hf Hks; simpl.
  - unfold ret. f_equal. symmetry. apply (set_table_same IndexTable).
  - destruct (Hks k) as [v Hv]; [left|].
    unfold insert_rows. simpl. fold (insert_rows p rk ks). rewrite Hv.
    erewrite bind_ok; last first.
    { unfold getitem. rewrite Hv. unfold bind, ret.
      apply (create_swallow_ok w _ (_partition_key k v) rk Hf).
      - apply index_entity_pk, Hp.
      - apply index_entity_rk, Hp. }
    rewrite IH.
    + reflexivity.
    + destruct w; exact Hf.
    + intros k' Hk'. apply Hks. right. exact Hk'.
Qed.

Lemma delete_loop_ok (p : dict) (rk : string) (ks : list string) (w : World) :
  faults w = [] →
  (∀ k, k ∈ ks → is_Some (p !! k)) →
  for_each ks (λ key,
    v <- getitem p key ;;
    let pk := _partition_key key v in
    try_except (delete_entity IndexTable pk rk) is_not_found (ret tt)) w
  = (Ok tt, set_table IndexTable (delete_rows p rk ks (table w)) w).
Proof.
  revert w.
  induction ks as [|k ks IH]; intros w Hf Hks; simpl.
  - unfold ret. f_equal. symmetry. apply (set_table_same IndexTable).
  - destruct (Hks k) as [v Hv]; [left|].
    unfold delete_rows. simpl. fold (delete_rows p rk ks). rewrite Hv.
    erewrite bind_ok; last first.
    { unfold getitem. rewrite Hv. unfold bind, ret.
      apply (delete_swallow_ok w (_partition_key k v) rk Hf). }
    rewrite IH.
    + reflexivity.
    + destruct w; exact Hf.
    + intros k' Hk'. apply Hks. right. exact Hk'.
Qed.

Lemma apply_insert_ok (p : dict) (w : World) :
  faults w = [] → stripped p →
  Client._apply_insert self p w =
  match content_key_of self p with
  | Ok rk =>
      (Ok tt, set_table IndexTable
                (insert_rows p rk (self_index_keys self) (table w)) w)
  | Raise e => (Raise e, w)
  end.
Proof.
  intros Hf Hp. unfold Client._apply_insert.
  destruct (content_key_of self p) as [rk|e] eqn:E.
  - erewrite bind_ok by (rewrite content_key_eq, E; reflexivity).
    apply insert_loop_ok; auto. eapply content_key_present, E.
  - erewrite bind_raise by (rewrite content_key_eq, E; reflexivity).
    reflexivity.
Qed.

Lemma apply_delete_ok (p : dict) (w : World) :
  faults w = [] →
  Client._apply_delete self p w =
  match content_key_of self p with
  | Ok rk =>
      (Ok tt, set_table IndexTable
                (delete_rows p rk (self_index_keys self) (table w)) w)
  | Raise e => (Raise e, w)
  end.
Proof.
  intros Hf. unfold Client._apply_delete.
  destruct (content_key_of self p) as [rk|e] eqn:E.
  - erewrite bind_ok by (rewrite content_key_eq, E; reflexivity).
    apply delete_loop_ok; auto. eapply content_key_present, E.
  - erewrite bind_raise by (rewrite content_key_eq, E; reflexivity).
    reflexivity.
Qed.

End apply.

(** ** The effect of the loops on the index table *)
Section rows.

Variables (p : dict) (rk : string).

Lemma targets_cons_Some (k : string) (ks : list string) (v : string) :
  p !! k = Some v →
  targets p rk (k :: ks) = (_partition_key k v, rk) :: targets p rk ks.
Proof. intros H. unfold targets. simpl. rewrite H. reflexivity. Qed.

Lemma targets_cons_None (k : string) (ks : list string) :
  p !! k = None → targets p rk (k :: ks) = targets p rk ks.
Proof. intros H. unfold targets. simpl. rewrite H. reflexivity. Qed.


Lemma insert_rows_cons (k : string) (ks : list string) (t : Table) :
  insert_rows p rk (k :: ks) t =
  insert_rows p rk ks
    match p !! k with
    | Some v =>
        put_if_absent (_partition_key k v, rk)
          (index_entity p (_partition_key k v) rk) t
    | None => t
    end.
Proof. reflexivity. Qed.

Lemma delete_rows_cons (k : string) (ks : list string) (t : Table) :
  delete_rows p rk (k :: ks) t =
  delete_rows p rk ks
    match p !! k with
    | Some v => base.delete (_partition_key k v, rk) t
    | None => t
    end.
Proof. reflexivity. Qed.

Lemma insert_rows_lookup (ks : list string) (t : Table)
    (key : string * string) :
  insert_rows p rk ks t !! key =
  match t !! key with
  | Some e => Some e
  | None =>
      if decide (key ∈ targets p rk ks)
      then Some (index_entity p key.1 rk) else None
  end.
Proof.
  revert t. induction ks as [|k ks IH]; intros t.
  - change (insert_rows p rk [] t) with t. destruct (t !! key); [reflexivity|].
    destruct (decide (key ∈ targets p rk [])) as [Hin|]; [inversion Hin|reflexivity].
  - rewrite insert_rows_cons.
    destruct (p !! k) as [v|] eqn:Hv.
    + rewrite IH, (targets_cons_Some _ _ v Hv). unfold put_if_absent.
      destruct (t !! (_partition_key k v, rk)) as [e0|] eqn:E0.
      * destruct (t !! key) as [e|] eqn:E; [reflexivity|].
        assert (key ≠ (_partition_key k v, rk)) by congruence.
        destruct (decide (key ∈ targets p rk ks)) as [Hin|Hin].
        -- rewrite decide_True; [reflexivity|]. right. exact Hin.
        -- rewrite decide_False; [reflexivity|].
           rewrite elem_of_cons. tauto.
      * destruct (decide (key = (_partition_key k v, rk))) as [->|Hne].
        -- rewrite lookup_insert_eq, E0. rewrite decide_True; [reflexivity|left].
        -- rewrite lookup_insert_ne by congruence.
           destruct (t !! key); [reflexivity|].
           destruct (decide (key ∈ targets p rk ks)) as [Hin|Hin].
           ++ rewrite decide_True; [reflexivity|]. right. exact Hin.
           ++ rewrite decide_False; [reflexivity|].
              rewrite elem_of_cons. tauto.
    + rewrite IH, (targets_cons_None _ _ Hv). reflexivity.
Qed.

Lemma delete_rows_lookup (ks : list string) (t : Table)
    (key : string * string) :
  delete_rows p rk ks t !! key =
  if decide (key ∈ targets p rk ks) then None else t !! key.
Proof.
  revert t. induction ks as [|k ks IH]; intros t.
  - change (delete_rows p rk [] t) with t.
    destruct (decide (key ∈ targets p rk [])) as [Hin|]; [inversion Hin|reflexivity].
  - rewrite delete_rows_cons.
    destruct (p !! k) as [v|] eqn:Hv.
    + rewrite IH, (targets_cons_Some _ _ v Hv).
      destruct (decide (key ∈ targets p rk ks)) as [Hin|Hin].
      * rewrite decide_True; [reflexivity|]. right. exact Hin.
      * destruct (decide (key = (_partition_key k v, rk))) as [->|Hne].
        -- rewrite lookup_delete_eq. rewrite decide_True; [reflexivity|left].
        -- rewrite lookup_delete_ne by congruence.
           rewrite decide_False; [reflexivity|]. rewrite elem_of_cons. tauto.
    + rewrite IH, (targets_cons_None _ _ Hv). reflexivity.
Qed.


Lemma insert_rows_present (ks : list string) (t : Table)
    (key : string * string) :
  key ∈ targets p rk ks → is_Some (insert_rows p rk ks t !! key).
Proof.
  intros H. rewrite insert_rows_lookup. destruct (t !! key); [eauto|].
  rewrite decide_True by done. eauto.
Qed.

Lemma insert_rows_all_present (ks : list string) (t : Table) :
  (∀ key, key ∈ targets p rk ks → is_Some (t !! key)) →
  insert_rows p rk ks t = t.
Proof.
  intros H. apply map_eq. intros key. rewrite insert_rows_lookup.
  destruct (t !! key) eqn:E; [reflexivity|].
  destruct (decide (key ∈ targets p rk ks)) as [Hin|]; [|reflexivity].
  apply H in Hin. rewrite E in Hin. destruct Hin; discriminate.
Qed.

Lemma insert_rows_idemp (ks : list string) (t : Table) :
  insert_rows p rk ks (insert_rows p rk ks t) = insert_rows p rk ks t.
Proof. apply insert_rows_all_present. intros key. apply insert_rows_present. Qed.

Lemma delete_rows_all_absent (ks : list string) (t : Table) :
  (∀ key, key ∈ targets p rk ks → t !! key = None) →
  delete_rows p rk ks t = t.
Proof.
  intros H. apply map_eq. intros key. rewrite delete_rows_lookup.
  destruct (decide (key ∈ targets p rk ks)) as [Hin|]; [|reflexivity].
  symmetry. apply H, Hin.
Qed.

Lemma delete_rows_idemp (ks : list string) (t : Table) :
  delete_rows p rk ks (delete_rows p rk ks t) = delete_rows p rk ks t.
Proof.
  apply delete_rows_all_absent. intros key Hin.
  rewrite delete_rows_lookup, decide_True by done. reflexivity.
Qed.


End rows.

(** ** Idempotent apply and fan-out *)

(** C2. Idempotent apply: in a store that fails no call, applying an insert
    whose index-partition entries all exist does not raise and leaves the
    state as it is (no duplicate, no merged payload); applying a delete
    whose target entries are all absent does not raise and changes nothing;
    and applying the same insert, or the same delete, twice leaves the same
    state as applying it once. *)
Theorem apply_idempotent (self : TableCatalogClient) (payload : dict)
    (w : World) :
  faults w = [] → stripped payload →
  (∀ rk, content_key_of self payload = Ok rk →
     (∀ key, key ∈ targets payload rk (self_index_keys self) →
             is_Some (table w !! key)) →
     Client._apply_insert self payload w = (Ok tt, w))
  ∧ (∀ rk, content_key_of self payload = Ok rk →
     (∀ key, key ∈ targets payload rk (self_index_keys self) →
             table w !! key = None) →
     Client._apply_delete self payload w = (Ok tt, w))
  ∧ (Client._apply_insert self payload ;; Client._apply_insert self payload) w
    = Client._apply_insert self payload w
  ∧ (Client._apply_delete self payload ;; Client._apply_delete self payload) w
    = Client._apply_delete self payload w.
Proof.
  intros Hf Hp. repeat split.
  - intros rk Hrk Hall. rewrite apply_insert_ok, Hrk by done.
    rewrite insert_rows_all_present by done.
    f_equal. apply (set_table_same IndexTable).
  - intros rk Hrk Hnone. rewrite apply_delete_ok, Hrk by done.
    rewrite delete_rows_all_absent by done.
    f_equal. apply (set_table_same IndexTable).
  - unfold bind. rewrite apply_insert_ok by done.
    destruct (content_key_of self payload) as [rk|e] eqn:E; [|reflexivity].
    rewrite apply_insert_ok, E by (done || (destruct w; done)).
    rewrite set_table_twice. simpl. rewrite insert_rows_idemp. reflexivity.
  - unfold bind. rewrite apply_delete_ok by done.
    destruct (content_key_of self payload) as [rk|e] eqn:E; [|reflexivity].
    rewrite apply_delete_ok, E by (done || (destruct w; done)).
    rewrite set_table_twice. simpl. rewrite delete_rows_idemp. reflexivity.
Qed.

Lemma apply_idempotent_witness :
  (Client._apply_insert team_client u1 ;; Client._apply_insert team_client u1)
    empty_world
  = Client._apply_insert team_client u1 empty_world.
Proof.
  apply (apply_idempotent team_client u1 empty_world);
    [reflexivity | split; reflexivity].
Defined.




(** ** Scans of a partition *)
Section scans.

Global Instance row_le_trans : Transitive row_le.
Proof. intros a b c. unfold row_le. apply transitivity. Qed.

Global Instance row_le_total : Total row_le.
Proof. intros a b. unfold row_le. apply total, _. Qed.


Lemma compare_refl (a : string) : String.compare a a = Eq.
Proof.
  induction a as [|c a IH]; simpl; [reflexivity|].
  unfold Ascii.compare. rewrite N.compare_refl. exact IH.
Qed.





Lemma scan_elem (q : odata) (t : Table) (kv : (string * string) * dict) :
  kv ∈ scan q t ↔ t !! kv.1 = Some kv.2 ∧ matches q kv.1 = true.
Proof.
  unfold scan. rewrite merge_sort_Permutation, list_elem_of_filter.
  destruct kv as [k e]. rewrite elem_of_map_to_list. simpl. tauto.
Qed.




Lemma stamp_RowKey (key : string * string) (props : dict) :
  stamp key props !! "RowKey" = Some key.2.
Proof. unfold stamp. rewrite lookup_insert_ne by done. apply lookup_insert_eq. Qed.

Lemma stamp_PartitionKey (key : string * string) (props : dict) :
  stamp key props !! "PartitionKey" = Some key.1.
Proof. unfold stamp. apply lookup_insert_eq. Qed.

Lemma stamp_other (key : string * string) (props : dict) (k : string) :
  k ≠ "PartitionKey" → k ≠ "RowKey" → stamp key props !! k = props !! k.
Proof. intros. unfold stamp. rewrite !lookup_insert_ne by done. reflexivity. Qed.

Lemma matches_gt (pk s : string) (key : string * string) :
  matches (pk, [(Gt, s)]) key = true ↔ key.1 = pk ∧ String.ltb s key.2 = true.
Proof.
  unfold matches, rk_test. simpl.
  rewrite andb_true_iff, bool_decide_eq_true, andb_true_r. reflexivity.
Qed.

End scans.

(** ** Frames: which table a computation can touch *)
Section frames.

Lemma keeps_wal_ret {A} (a : A) : keeps_wal (ret a).
Proof. intros w r w' [= _ <-]. reflexivity. Qed.

Lemma keeps_wal_raise {A} (e : exn) : keeps_wal (raise e : M A).
Proof. intros w r w' [= _ <-]. reflexivity. Qed.

Lemma keeps_wal_bind {A B} (m : M A) (k : A → M B) :
  keeps_wal m → (∀ a, keeps_wal (k a)) → keeps_wal (bind m k).
Proof.
  intros Hm Hk w r w'. unfold bind.
  destruct (m w) as [[a|e] w1] eqn:E; intros H.
  - rewrite (Hk a _ _ _ H). eapply Hm, E.
  - injection H as _ <-. eapply Hm, E.
Qed.

Lemma keeps_wal_try {A} (m h : M A) (c : exn → bool) :
  keeps_wal m → keeps_wal h → keeps_wal (try_except m c h).
Proof.
  intros Hm Hh w r w'. unfold try_except.
  destruct (m w) as [[a|e] w1] eqn:E; intros H.
  - injection H as _ <-. eapply Hm, E.
  - destruct (c e).
    + rewrite (Hh _ _ _ H). eapply Hm, E.
    + injection H as _ <-. eapply Hm, E.
Qed.

Lemma keeps_wal_for_each {A} (l : list A) (body : A → M unit) :
  (∀ x, keeps_wal (body x)) → keeps_wal (for_each l body).
Proof.
  intros Hb. induction l as [|x l IH]; simpl.
  - apply keeps_wal_ret.
  - apply keeps_wal_bind; auto.
Qed.

Lemma keeps_wal_getitem (d : dict) (k : string) : keeps_wal (getitem d k).
Proof.
  unfold getitem. destruct (d !! k); [apply keeps_wal_ret | apply keeps_wal_raise].
Qed.

Lemma keeps_wal_store_call : keeps_wal store_call.
Proof.
  intros w r w'. unfold store_call.
  destruct (faults w); intros [= _ <-]; reflexivity.
Qed.

Lemma keeps_wal_create (e : dict) : keeps_wal (create_entity IndexTable e).
Proof.
  unfold create_entity.
  apply keeps_wal_bind; [apply keeps_wal_store_call|]. intros _.
  apply keeps_wal_bind.
  { unfold entity_key.
    apply keeps_wal_bind; [apply keeps_wal_getitem|]. intros pk.
    apply keeps_wal_bind; [apply keeps_wal_getitem|]. intros rk.
    apply keeps_wal_ret. }
  intros key w r w'. simpl.
  destruct (table w !! key); intros [= _ <-]; reflexivity.
Qed.

Lemma keeps_wal_delete (pk rk : string) : keeps_wal (delete_entity IndexTable pk rk).
Proof.
  unfold delete_entity.
  apply keeps_wal_bind; [apply keeps_wal_store_call|]. intros _ w r w'. simpl.
  destruct (table w !! (pk, rk)); intros [= _ <-]; reflexivity.
Qed.

Lemma keeps_wal_content_key (self : TableCatalogClient) (p : dict) :
  keeps_wal (Client.content_key self p).
Proof. intros w r w'. rewrite content_key_eq. intros [= _ <-]. reflexivity. Qed.

Lemma keeps_wal_apply_insert (self : TableCatalogClient) (p : dict) :
  keeps_wal (Client._apply_insert self p).
Proof.
  unfold Client._apply_insert.
  apply keeps_wal_bind; [apply keeps_wal_content_key|]. intros rk.
  apply keeps_wal_for_each. intros key.
  apply keeps_wal_bind; [apply keeps_wal_getitem|]. intros v.
  apply keeps_wal_try; [apply keeps_wal_create | apply keeps_wal_ret].
Qed.

Lemma keeps_wal_apply_delete (self : TableCatalogClient) (p : dict) :
  keeps_wal (Client._apply_delete self p).
Proof.
  unfold Client._apply_delete.
  apply keeps_wal_bind; [apply keeps_wal_content_key|]. intros rk.
  apply keeps_wal_for_each. intros key.
  apply keeps_wal_bind; [apply keeps_wal_getitem|]. intros v.
  apply keeps_wal_try; [apply keeps_wal_delete | apply keeps_wal_ret].
Qed.

Lemma keeps_wal_apply_entry (self : TableCatalogClient) (o : dict) :
  keeps_wal (Client.apply_entry self o).
Proof.
  unfold Client.apply_entry.
  apply keeps_wal_bind; [apply keeps_wal_getitem|]. intros op.
  repeat case_bool_decide;
    [apply keeps_wal_apply_insert | apply keeps_wal_apply_delete | apply keeps_wal_ret].
Qed.

End frames.

(** ** Replay and the checkpoint *)
Section replay.

Variable self : TableCatalogClient.



Lemma checkpoint_entity_keys (id : string) :
  entity_key (list_to_map [("PartitionKey", "metadata"); ("RowKey", "checkpoint");
                           ("datetime", id)])
  = ret ("metadata", "checkpoint").
Proof. reflexivity. Qed.

Lemma checkpoint_after_upsert (t : Table) (id : string) (w : World) :
  wal w = <[("metadata", "checkpoint") :=
              list_to_map [("PartitionKey", "metadata");
                           ("RowKey", "checkpoint"); ("datetime", id)]]> t →
  checkpoint w = Some id.
Proof. unfold checkpoint. intros ->. rewrite lookup_insert_eq. reflexivity. Qed.

(** Advancing the checkpoint either records the entry's identifier or
    fails in the store and changes neither table. *)
Lemma advance_checkpoint_inv (o : dict) (id : string) (w : World)
    (r : Result unit) (w' : World) :
  o !! "RowKey" = Some id →
  Client.advance_checkpoint o w = (r, w') →
  table w' = table w
  ∧ ((r = Ok tt ∧ checkpoint w' = Some id)
     ∨ (r = Raise HttpResponseError ∧ wal w' = wal w)).
Proof.
  intros Hid. unfold Client.advance_checkpoint, getitem. rewrite Hid.
  unfold bind at 1. unfold ret at 1. unfold upsert_entity.
  unfold bind at 1. unfold store_call.
  destruct (faults w) as [|[] fs] eqn:Hf.
  - rewrite checkpoint_entity_keys. unfold bind, ret. intros [= <- <-].
    split; [reflexivity|]. left. split; [reflexivity|].
    eapply checkpoint_after_upsert. reflexivity.
  - intros [= <- <-]. split; [reflexivity|]. right. split; reflexivity.
  - rewrite checkpoint_entity_keys. unfold bind, ret. intros [= <- <-].
    split; [reflexivity|]. left. split; [reflexivity|].
    eapply checkpoint_after_upsert. reflexivity.
Qed.


(** One replayed entry leaves the checkpoint where it was or at the
    entry's own identifier; on success it is at the identifier. *)
Lemma replay_inv (o : dict) (id : string) (w : World) (r : Result unit)
    (w' : World) :
  o !! "RowKey" = Some id →
  Client.replay self o w = (r, w') →
  (checkpoint w' = checkpoint w ∧ r ≠ Ok tt) ∨ (checkpoint w' = Some id ∧ r = Ok tt).
Proof.
  intros Hid. unfold Client.replay, bind.
  destruct (Client.apply_entry self o w) as [[[]|e] w1] eqn:E.
  - intros H. destruct (advance_checkpoint_inv _ id _ _ _ Hid H) as [_ H'].
    clear H. rename H' into H. apply keeps_wal_apply_entry in E.
    destruct H as [[-> H]|[-> H]]; [right; done|left].
    unfold checkpoint. rewrite H, E. done.
  - intros [= <- <-]. left. apply keeps_wal_apply_entry in E.
    unfold checkpoint. rewrite E. done.
Qed.



(** The start of a replay: the tables are only read. *)
Lemma start_of_inv (st : option string) (w : World) (r : Result string)
    (wa : World) :
  Client.start_of st w = (r, wa) →
  table wa = table w ∧ wal wa = wal w
  ∧ (∀ s, r = Ok s → Client.truthy st = None →
          match checkpoint w with Some c => c = s | None => True end).
Proof.
  unfold Client.start_of. destruct (Client.truthy st) as [s0|].
  { intros [= <- <-]. split; [done|]. split; [done|]. intros s _ [=]. }
  unfold try_except, bind, get_entity, bind, store_call, checkpoint.
  destruct (faults w) as [|[] fs]; simpl;
    try (intros [= <- <-]; split; [done|]; split; [done|]; intros s [=]);
    (destruct (wal w !! ("metadata", "checkpoint")) as [props|]; simpl;
     [ unfold getitem; rewrite stamp_other by done;
       destruct (props !! "datetime") as [d|]; simpl;
       intros [= <- <-]; (split; [done|]); (split; [done|]); intros s [=]; done
     | intros [= <- <-]; split; [done|]; split; done ]).
Qed.

Lemma query_entities_inv (h : handle) (q : odata) (w : World)
    (r : Result (list dict)) (wb : World) :
  query_entities h q w = (r, wb) →
  table wb = table w ∧ wal wb = wal w
  ∧ (∀ l, r = Ok l → l = (λ kv, stamp kv.1 kv.2) <$> scan q (get_table h w)).
Proof.
  unfold query_entities, bind, store_call.
  destruct (faults w) as [|[] fs]; simpl.
  - intros [= <- <-]. repeat split. intros l [= <-]. reflexivity.
  - intros [= <- <-]. repeat split. intros l [=].
  - intros [= <- <-]. repeat split. intros l [= <-]. destruct h; reflexivity.
Qed.

Lemma query_entities_ok (h : handle) (q : odata) (w : World) :
  faults w = [] →
  query_entities h q w
  = (Ok ((λ kv, stamp kv.1 kv.2) <$> scan q (get_table h w)), w).
Proof.
  intros Hf. unfold query_entities.
  rewrite (bind_ok _ _ w w tt) by (apply store_call_ok, Hf). reflexivity.
Qed.

(** Every entry a recovery replays is a stored WAL entry whose identifier
    is strictly after the starting point. *)
Lemma orphans_after (s : string) (t : Table) (o : dict) :
  o ∈ (λ kv, stamp kv.1 kv.2) <$> scan ("wal", [(Gt, s)]) t →
  ∃ id props, o = stamp ("wal", id) props ∧ t !! ("wal", id) = Some props
              ∧ String.ltb s id = true ∧ o !! "RowKey" = Some id.
Proof.
  intros ([[pk id] props] & -> & Hin)%list_elem_of_fmap.
  apply scan_elem in Hin as [Hl Hm]. apply matches_gt in Hm as [Hpk Hgt].
  simpl in *. subst pk. exists id, props.
  split; [reflexivity|]. split; [exact Hl|]. split; [exact Hgt|].
  apply stamp_RowKey.
Qed.


End replay.

(** ** Checkpoint monotonicity *)



(** ** Failure during replay *)





Lemma failing_second_fails :
  Client.apply_entry team_client (wal_entry "2026-01-02" "insert" u2)
    (after (Client.start_of None ;;
            query_entities WalTable ("wal", [(Gt, "1900-01-01")]) ;;
            Client.replay team_client (wal_entry "2026-01-01" "insert" u1))
       failing_second)
  = (Raise HttpResponseError,
     after (Client.recover team_client None) failing_second).
Proof. vm_compute. reflexivity. Qed.


(** ** Entries with an unknown operation tag *)



(** ** Query validation *)
Section query.

Variable self : TableCatalogClient.
Hypothesis locked : self_schema_locked self = true.

Lemma require_schema_ok (w : World) : Client._require_schema self w = (Ok tt, w).
Proof. unfold Client._require_schema. rewrite locked. reflexivity. Qed.

(** The recursive call on a one-entry filter is the first-predicate code. *)
Lemma query_single_eq (fv : string * string) (rf rt : option string)
    (w : World) :
  Client.query self [fv] rf rt w = Client.query_single self fv rf rt w.
Proof.
  unfold Client.query, Client.query_single, bind. rewrite require_schema_ok.
  destruct (Client.query_first self fv rf rt w) as [[rs|e] w']; reflexivity.
Qed.

(** An empty filter: [next(items)] raises [StopIteration]. *)
Lemma query_empty_filter (rf rt : option string) (w : World) :
  Client.query self [] rf rt w = (Raise StopIteration, w).
Proof. unfold Client.query, bind. rewrite require_schema_ok. reflexivity. Qed.

Lemma query_first_unknown (f v : string) (rf rt : option string) (w : World) :
  f ∉ self_index_keys self →
  Client.query_first self (f, v) rf rt w
  = (Raise (ValueError (UnknownField f)), w).
Proof.
  intros Hf. unfold Client.query_first, Client._validate_filter, bind.
  rewrite bool_decide_eq_false_2 by done. reflexivity.
Qed.

Lemma query_rest_nil_results (items : list (string * string))
    (rf rt : option string) (w : World) :
  Client.query_rest self items rf rt [] w = (Ok [], w).
Proof. destruct items; reflexivity. Qed.

Lemma query_rest_app (l1 l2 : list (string * string)) (rf rt : option string)
    (rs : list dict) (w : World) :
  Client.query_rest self (l1 ++ l2) rf rt rs w =
  match Client.query_rest self l1 rf rt rs w with
  | (Ok rs', w') => Client.query_rest self l2 rf rt rs' w'
  | (Raise e, w') => (Raise e, w')
  end.
Proof.
  revert rs w. induction l1 as [|fv l1 IH]; intros rs w; [reflexivity|].
  simpl. destruct rs as [|r rs].
  - unfold ret. rewrite query_rest_nil_results. reflexivity.
  - unfold bind.
    destruct (Client.query_single self fv rf rt w) as [[found|e] w1];
      [|reflexivity].
    apply IH.
Qed.

Lemma query_rest_unknown (f v : string) (post : list (string * string))
    (rf rt : option string) (rs : list dict) (w : World) :
  f ∉ self_index_keys self →
  Client.query_rest self ((f, v) :: post) rf rt rs w =
  match rs with
  | [] => (Ok [], w)
  | _ :: _ => (Raise (ValueError (UnknownField f)), w)
  end.
Proof.
  intros Hf. simpl. destruct rs as [|r rs]; [reflexivity|].
  unfold bind, Client.query_single, bind. rewrite require_schema_ok.
  rewrite query_first_unknown by done. reflexivity.
Qed.

End query.

(** C5, as stated, fails when an earlier predicate leaves no
    row: the loop stops before the unknown field is looked at, and the
    query returns the empty list. *)
Lemma unknown_field_short_circuit :
  ¬ rejects_unknown_fields team_client
      [("email", "nobody@x.com"); ("bogus", "x")] empty_world.
Proof.
  intros H. destruct (H "bogus") as [w' Hw'].
  - set_solver.
  - apply (bool_decide_unpack _). vm_compute. exact I.
  - vm_compute in Hw'. discriminate.
Qed.

(** C5 (amended). Query input validation on a non-empty filter: a field
    outside the index-key set makes [query] fail with [UnknownField] when
    it is the first field of the filter, and when the predicates before it
    leave a non-empty running result; when they leave no row, the loop
    stops before the field is validated and the query returns the empty
    list. *)
Theorem query_validation (self : TableCatalogClient)
    (pre post : list (string * string)) (f v : string)
    (rf rt : option string) (w : World) :
  self_schema_locked self = true →
  f ∉ self_index_keys self →
  Client.query self ((f, v) :: post) rf rt w
  = (Raise (ValueError (UnknownField f)), w)
  ∧ (pre ≠ [] → ∀ rs w',
       Client.query self pre rf rt w = (Ok rs, w') →
       Client.query self (pre ++ (f, v) :: post) rf rt w =
       match rs with
       | [] => (Ok [], w')
       | _ :: _ => (Raise (ValueError (UnknownField f)), w')
       end).
Proof.
  intros Hl Hf. split.
  - unfold Client.query, bind. rewrite require_schema_ok by done.
    rewrite query_first_unknown by done. reflexivity.
  - intros Hpre rs w'. destruct pre as [|fv pre]; [done|]. simpl.
    unfold Client.query, bind. rewrite require_schema_ok by done.
    destruct (Client.query_first self fv rf rt w) as [[rs0|e] w0];
      [|discriminate].
    rewrite query_rest_app.
    destruct (Client.query_rest self pre rf rt rs0 w0) as [[rs1|e] w1];
      [|discriminate].
    intros [= -> ->]. apply query_rest_unknown; done.
Qed.

Lemma query_validation_witness :
  Client.query team_client [("bogus", "x")] None None empty_world
  = (Raise (ValueError (UnknownField "bogus")), empty_world).
Proof.
  apply (proj1 (query_validation team_client [] [] "bogus" "x" None None
                  empty_world eq_refl
                  ltac:(apply (bool_decide_unpack _); vm_compute; exact I))).
Defined.

(** ** Row bounds *)
Section bounds.

Lemma ascii_compare_refl (c : ascii) : Ascii.compare c c = Eq.
Proof. unfold Ascii.compare. apply N.compare_refl. Qed.

(** A common prefix does not matter to the comparison. *)
Lemma compare_app_common (a x y : string) :
  String.compare (a +:+ x) (a +:+ y) = String.compare x y.
Proof.
  induction a as [|c a IH]; [reflexivity|].
  rewrite !app_cons. simpl. rewrite ascii_compare_refl. exact IH.
Qed.

Lemma le_app_common (a x y : string) :
  String.le (a +:+ x) (a +:+ y) ↔ String.le x y.
Proof. unfold String.le, String.leb. rewrite compare_app_common. reflexivity. Qed.

Lemma le_empty (x : string) : String.le "" x.
Proof. destruct x; exact I. Qed.

Lemma hex_digit_below_z (n : Z) :
  0 ≤ n < 16 → Ascii.compare (hashlib.hex_digit n) "z" = Lt.
Proof.
  intros H.
  assert (Hn : n = 0 ∨ n = 1 ∨ n = 2 ∨ n = 3 ∨ n = 4 ∨ n = 5 ∨ n = 6 ∨ n = 7
             ∨ n = 8 ∨ n = 9 ∨ n = 10 ∨ n = 11 ∨ n = 12 ∨ n = 13 ∨ n = 14
             ∨ n = 15) by lia.
  repeat (destruct Hn as [->|Hn]; [reflexivity|]). subst n. reflexivity.
Qed.

(** The fingerprint starts with a hexadecimal digit. *)
Lemma fingerprint_head (s : string) :
  ∃ c rest, fingerprint s = String c rest ∧ Ascii.compare c "z" = Lt.
Proof.
  unfold fingerprint, hashlib.md5_hexdigest, hashlib.digest_bytes.
  destruct (foldl hashlib.process hashlib.init _) as [[[a b] c] d].
  cbn [hashlib.bytes_le app foldr]. unfold hashlib.hex_byte at 1.
  unfold Py.slice_to. cbn [String.substring].
  eexists _, _. split; [reflexivity|].
  apply hex_digit_below_z. apply Z.mod_pos_bound. lia.
Qed.

(** A content key [pv:fingerprint] passes the lower test for the bound
    [pv] and the upper test for the bound [pv]. *)
Lemma content_key_within (pv ivs : string) :
  String.le (pv +:+ ":") (pv +:+ ":" +:+ fingerprint ivs)
  ∧ String.le (pv +:+ ":" +:+ fingerprint ivs) (pv +:+ ":z").
Proof.
  destruct (fingerprint_head ivs) as (c & rest & -> & Hc). split.
  - apply le_app_common. change ":" with (":" +:+ "") at 1.
    apply le_app_common. apply le_empty.
  - apply le_app_common. change ":z" with (":" +:+ "z").
    apply le_app_common. unfold String.le, String.leb. simpl. rewrite Hc. exact I.
Qed.

Lemma entity_to_payload_stamp (key : string * string) (e : dict) :
  _entity_to_payload (stamp key e) = _entity_to_payload e.
Proof.
  apply map_eq. intros k. rewrite !entity_to_payload_lookup.
  case_bool_decide as Hk; [reflexivity|].
  apply stamp_other; intros ->; apply Hk; unfold metadata_keys; set_solver.
Qed.

Lemma bounds_test (rf rt : option string) (rk : string) :
  forallb (rk_test rk) (Client.row_bounds rf rt) = true ↔
  (∀ f, Client.truthy rf = Some f → String.le (Py.lower f +:+ ":") rk)
  ∧ (∀ t, Client.truthy rt = Some t → String.le rk (Py.lower t +:+ ":z")).
Proof.
  unfold Client.row_bounds, String.le. rewrite forallb_app, andb_true_iff.
  f_equiv.
  - destruct (Client.truthy rf) as [f|]; simpl; unfold rk_test; simpl.
    + rewrite andb_true_r. split.
      * intros H f' [= <-]. apply Is_true_true, H.
      * intros H. apply Is_true_true, H. reflexivity.
    + split; [intros _ f' [=]|reflexivity].
  - destruct (Client.truthy rt) as [t|]; simpl; unfold rk_test; simpl.
    + rewrite andb_true_r. split.
      * intros H t' [= <-]. apply Is_true_true, H.
      * intros H. apply Is_true_true, H. reflexivity.
    + split; [intros _ t' [=]|reflexivity].
Qed.

End bounds.

(** ** The filter text read back *)
Section filter_text.

Lemma drop_prefix_app (p s : string) : drop_prefix p (p +:+ s) = Some s.
Proof.
  induction p as [|a p IH]; [reflexivity|].
  rewrite app_cons. cbn [drop_prefix]. rewrite Ascii.eqb_refl. exact IH.
Qed.

Lemma quote_free_cons (c : ascii) (s : string) :
  quote_free (String c s) ↔ c ≠ "'"%char ∧ quote_free s.
Proof.
  unfold quote_free. cbn [chars]. rewrite not_elem_of_cons.
  split; intros [H1 H2]; split; auto.
Qed.

Lemma quote_free_app (a b : string) :
  quote_free (a +:+ b) ↔ quote_free a ∧ quote_free b.
Proof.
  induction a as [|c a IH].
  - cbn. unfold quote_free at 2. cbn. split; [intros H; split; [|exact H]|tauto].
    apply not_elem_of_nil.
  - rewrite app_cons, !quote_free_cons, IH. tauto.
Qed.

Lemma read_literal_plain (lit rest : string) :
  quote_free lit →
  match rest with String c _ => c ≠ "'"%char | EmptyString => True end →
  read_literal (lit +:+ String "'" rest) = Some (lit, rest).
Proof.
  intros Hq Hr. induction lit as [|c lit IH].
  - rewrite app_nil_l. cbn [read_literal]. rewrite Ascii.eqb_refl.
    destruct rest as [|c' rest']; [reflexivity|].
    destruct (Ascii.eqb_spec c' "'"); [contradiction|reflexivity].
  - apply quote_free_cons in Hq as [Hc Hq]. rewrite app_cons.
    cbn [read_literal]. destruct (Ascii.eqb_spec c "'"); [contradiction|].
    rewrite (IH Hq). reflexivity.
Qed.

Lemma lower_ascii_quote (c : ascii) :
  Py.lower_ascii c = "'"%char ↔ c = "'"%char.
Proof.
  split; [|intros ->; reflexivity].
  unfold Py.lower_ascii.
  destruct (_ && _)%N eqn:E; [|done].
  apply andb_true_iff in E as [E1 E2].
  apply N.leb_le in E1, E2. intros H.
  apply (f_equal N_of_ascii) in H. rewrite N_ascii_embedding in H by lia.
  cbn in H. lia.
Qed.

Lemma lower_quote_free (s : string) : quote_free s → quote_free (Py.lower s).
Proof.
  induction s as [|c s IH]; [done|].
  cbn [Py.lower]. rewrite !quote_free_cons. intros [Hc Hs].
  split; [|apply IH, Hs]. intros H. apply Hc, lower_ascii_quote, H.
Qed.

Lemma numeral_quote_free (d : Decimal.uint) :
  quote_free (NilEmpty.string_of_uint d).
Proof.
  induction d; cbn [NilEmpty.string_of_uint];
    [apply not_elem_of_nil|apply quote_free_cons; split; [discriminate|exact IHd]..].
Qed.

Lemma partition_key_quote_free (f v : string) :
  quote_free f → quote_free v → quote_free (_partition_key f v).
Proof.
  intros Hf Hv. rewrite partition_key_unfold. apply quote_free_app. split.
  - apply numeral_quote_free.
  - apply quote_free_cons. split; [discriminate|].
    apply quote_free_app. split; apply lower_quote_free; assumption.
Qed.

Lemma read_bounds_nil (fuel : nat) : read_bounds fuel "" = Some [].
Proof. destruct fuel; reflexivity. Qed.

Lemma read_bounds_ge (fuel : nat) (lit rest : string) :
  quote_free lit →
  match rest with String c _ => c ≠ "'"%char | EmptyString => True end →
  read_bounds (S fuel) (" and RowKey ge '" +:+ lit +:+ String "'" rest)
  = bs ← read_bounds fuel rest; Some ((Ge, lit) :: bs).
Proof.
  intros Hq Hr.
  change (" and RowKey ge '" +:+ lit +:+ String "'" rest)
    with (" and RowKey " +:+ ("ge '" +:+ (lit +:+ String "'" rest))).
  change (read_bounds (S fuel) (" and RowKey " +:+ ?x))
    with (r ← drop_prefix " and RowKey " (" and RowKey " +:+ x);
          o ← read_op r; l ← read_literal o.2;
          bs ← read_bounds fuel l.2; Some ((o.1, l.1) :: bs)).
  rewrite drop_prefix_app. cbn [mbind option_bind].
  change (read_op ("ge '" +:+ ?x)) with (Some (Ge, x)).
  cbn [mbind option_bind fst snd].
  rewrite (read_literal_plain lit rest Hq Hr). reflexivity.
Qed.

Lemma read_bounds_le (fuel : nat) (lit rest : string) :
  quote_free lit →
  match rest with String c _ => c ≠ "'"%char | EmptyString => True end →
  read_bounds (S fuel) (" and RowKey le '" +:+ lit +:+ String "'" rest)
  = bs ← read_bounds fuel rest; Some ((Le, lit) :: bs).
Proof.
  intros Hq Hr.
  change (" and RowKey le '" +:+ lit +:+ String "'" rest)
    with (" and RowKey " +:+ ("le '" +:+ (lit +:+ String "'" rest))).
  change (read_bounds (S fuel) (" and RowKey " +:+ ?x))
    with (r ← drop_prefix " and RowKey " (" and RowKey " +:+ x);
          o ← read_op r; l ← read_literal o.2;
          bs ← read_bounds fuel l.2; Some ((o.1, l.1) :: bs)).
  rewrite drop_prefix_app. cbn [mbind option_bind].
  change (read_op ("le '" +:+ ?x)) with (Some (Le, x)).
  cbn [mbind option_bind fst snd].
  rewrite (read_literal_plain lit rest Hq Hr). reflexivity.
Qed.

Lemma app_nil_r' (s : string) : s +:+ "" = s.
Proof. induction s as [|c s IH]; [reflexivity|]. rewrite app_cons, IH. reflexivity. Qed.

Lemma parse_filter_text (pk : string) (rf rt : option string) :
  quote_free pk →
  (∀ f, Client.truthy rf = Some f → quote_free f) →
  (∀ t, Client.truthy rt = Some t → quote_free t) →
  parse_filter (Client.filter_text pk rf rt)
  = Some (pk, Client.row_bounds rf rt).
Proof.
  intros Hpk Hf Ht. unfold parse_filter.
  assert (Hlen : ∃ n, String.length (Client.filter_text pk rf rt) = S (S n)).
  { unfold Client.filter_text. rewrite !app_length. cbn [String.length Nat.add].
    eexists. reflexivity. }
  destruct Hlen as [n ->].
  unfold Client.filter_text, Client.row_bounds.
  set (A := match Client.truthy rf with
            | Some f => " and RowKey ge '" +:+ Py.lower f +:+ ":'"
            | None => ""
            end).
  set (B := match Client.truthy rt with
            | Some t => " and RowKey le '" +:+ Py.lower t +:+ ":z'"
            | None => ""
            end).
  replace (("PartitionKey eq '" +:+ pk +:+ "'") +:+ A +:+ B)
    with ("PartitionKey eq '" +:+ (pk +:+ String "'" (A +:+ B)))
    by (rewrite !app_assoc'; reflexivity).
  rewrite drop_prefix_app. cbn [mbind option_bind].
  assert (HB : B = match Client.truthy rt with
                   | Some t => " and RowKey le '" +:+ (Py.lower t +:+ ":z")
                                 +:+ String "'" ""
                   | None => ""
                   end).
  { unfold B. destruct (Client.truthy rt); [|reflexivity].
    rewrite !app_assoc'. reflexivity. }
  assert (HA : A +:+ B = match Client.truthy rf with
                         | Some f => " and RowKey ge '" +:+ (Py.lower f +:+ ":")
                                       +:+ String "'" B
                         | None => B
                         end).
  { unfold A. destruct (Client.truthy rf); [|reflexivity].
    rewrite !app_assoc'. reflexivity. }
  assert (HBq : match B with
                | String c _ => c ≠ "'"%char
                | EmptyString => True
                end).
  { unfold B. destruct (Client.truthy rt); [discriminate|exact I]. }
  assert (HABq : match A +:+ B with
                 | String c _ => c ≠ "'"%char
                 | EmptyString => True
                 end).
  { unfold A. destruct (Client.truthy rf); [discriminate|exact HBq]. }
  rewrite (read_literal_plain pk (A +:+ B) Hpk HABq).
  cbn [mbind option_bind fst snd].
  assert (Hlit : ∀ x suffix, quote_free x → quote_free suffix →
            quote_free (Py.lower x +:+ suffix)).
  { intros x suffix Hx Hs. apply quote_free_app. split;
      [apply lower_quote_free, Hx|exact Hs]. }
  assert (Hc : quote_free ":").
  { apply quote_free_cons. split; [discriminate|apply not_elem_of_nil]. }
  assert (Hcz : quote_free ":z").
  { apply quote_free_cons. split; [discriminate|].
    apply quote_free_cons. split; [discriminate|apply not_elem_of_nil]. }
  assert (HBr : ∀ fuel, read_bounds (S fuel) B
            = Some match Client.truthy rt with
                   | Some t => [(Le, Py.lower t +:+ ":z")]
                   | None => []
                   end).
  { intros fuel. rewrite HB. destruct (Client.truthy rt) as [t|] eqn:Et;
      [|reflexivity].
    rewrite read_bounds_le; [|apply Hlit; [apply Ht; reflexivity|exact Hcz]|exact I].
    rewrite read_bounds_nil. reflexivity. }
  rewrite HA. destruct (Client.truthy rf) as [f|] eqn:Ef.
  - rewrite read_bounds_ge;
      [|apply Hlit; [apply Hf; reflexivity|exact Hc]|exact HBq].
    rewrite HBr. reflexivity.
  - rewrite HBr. reflexivity.
Qed.

End filter_text.

Lemma query_entities_text_parsed (h : handle) (text : string) (q : odata) :
  parse_filter text = Some q → query_entities_text h text = query_entities h q.
Proof. intros H. unfold query_entities_text. rewrite H. reflexivity. Qed.

Lemma query_one_ok (self : TableCatalogClient) (field value : string)
    (rf rt : option string) (w : World) :
  self_schema_locked self = true →
  field ∈ self_index_keys self →
  faults w = [] →
  quote_free field → quote_free value →
  (∀ f, Client.truthy rf = Some f → quote_free f) →
  (∀ t, Client.truthy rt = Some t → quote_free t) →
  Client.query self [(field, value)] rf rt w
  = (Ok (_entity_to_payload <$>
           ((λ kv, stamp kv.1 kv.2) <$>
              scan (_partition_key field value, Client.row_bounds rf rt)
                (table w))), w).
Proof.
  intros Hl Hf Hq Hqf Hqv Hrf Hrt. unfold Client.query.
  rewrite (bind_ok _ _ w w tt) by (apply require_schema_ok, Hl).
  unfold Client.query_first, Client._validate_filter.
  rewrite bool_decide_eq_true_2 by done.
  unfold bind at 1. unfold bind at 1. unfold ret at 1. cbn [fst snd].
  rewrite (query_entities_text_parsed IndexTable _ _
             (parse_filter_text _ rf rt
                (partition_key_quote_free _ _ Hqf Hqv) Hrf Hrt)).
  unfold bind. rewrite (query_entities_ok IndexTable) by done. reflexivity.
Qed.

Lemma three_users_quiet : faults three_users = [].
Proof. vm_compute. reflexivity. Qed.

(** C6, as stated, fails: between the bounds ["u1"] and
    ["u2"] lies the primary value ["u10"], but its content key
    ["u10:e5ea6cd9"] sorts before the lower bound ["u1:"], so the row is not
    returned. *)
Lemma primary_value_between_excluded :
  ¬ bounds_by_primary_value team_client "team" "eng" "u1" "u2" three_users.
Proof.
  intros H.
  pose (p := λ id, <["operation" := "insert"]> (user id (id +:+ "@x.com") "eng")).
  assert (Hq : (Client.query team_client [("team", "eng")] (Some "u1")
                  (Some "u2") three_users).1 = Ok [p "u1"; p "u2"])
    by (vm_compute; reflexivity).
  assert (Ht : table three_users !! (_partition_key "team" "eng",
                                     "u10" +:+ ":" +:+ "e5ea6cd9")
               = Some (index_entity (p "u10") "4_teameng" "u10:e5ea6cd9"))
    by (vm_compute; reflexivity).
  specialize (H _ "u10" "e5ea6cd9" _ Hq Ht I I). clear Hq Ht.
  apply elem_of_cons in H as [H|H];
    [|apply elem_of_cons in H as [H|H]; [|exact (not_elem_of_nil _ H)]];
    apply (f_equal (.!! "userId")) in H; vm_compute in H; discriminate.
Qed.

(** C6 (amended). Row bounds, for field, value and bounds that are ASCII and
    hold no quote, and bounds without upper-case letters: a single-predicate
    query in a store that fails no call returns exactly the stripped rows of
    the scanned partition whose whole content key lies, in code-point order,
    at or after [row_from + ":"] when [row_from] is given and non-empty, and
    at or before [row_to + ":z"] when [row_to] is given and non-empty. The
    content key [pv:fingerprint] of every primary value [pv] passes the
    lower test for [row_from = pv] and the upper test for [row_to = pv]:
    both ends are inclusive. *)
Theorem query_row_bounds (self : TableCatalogClient) (field value : string)
    (rf rt : option string) (w : World) :
  self_schema_locked self = true →
  field ∈ self_index_keys self →
  faults w = [] →
  plain field → plain value →
  (∀ f, Client.truthy rf = Some f → plain f ∧ Py.lower f = f) →
  (∀ t, Client.truthy rt = Some t → plain t ∧ Py.lower t = t) →
  (∃ rs, Client.query self [(field, value)] rf rt w = (Ok rs, w)
     ∧ ∀ r, r ∈ rs ↔
          ∃ rk e, table w !! (_partition_key field value, rk) = Some e
            ∧ r = _entity_to_payload e
            ∧ (∀ f, Client.truthy rf = Some f → String.le (f +:+ ":") rk)
            ∧ (∀ t, Client.truthy rt = Some t → String.le rk (t +:+ ":z")))
  ∧ (∀ pv ivs,
       String.le (pv +:+ ":") (pv +:+ ":" +:+ fingerprint ivs)
       ∧ String.le (pv +:+ ":" +:+ fingerprint ivs) (pv +:+ ":z")).
Proof.
  intros Hl Hf Hq [_ Hqf] [_ Hqv] Hrf Hrt. split.
  - eexists. split.
    { apply query_one_ok; try done.
      - intros f Hf'. apply (Hrf f Hf').
      - intros t Ht'. apply (Hrt t Ht'). }
    assert (Hb : ∀ rk,
              forallb (rk_test rk) (Client.row_bounds rf rt) = true ↔
              (∀ f, Client.truthy rf = Some f → String.le (f +:+ ":") rk)
              ∧ (∀ t, Client.truthy rt = Some t → String.le rk (t +:+ ":z"))).
    { intros rk. rewrite bounds_test. split; intros [H1 H2]; split.
      - intros f Hf'. destruct (Hrf f Hf') as [_ <-]. apply H1, Hf'.
      - intros t Ht'. destruct (Hrt t Ht') as [_ <-]. apply H2, Ht'.
      - intros f Hf'. destruct (Hrf f Hf') as [_ ->]. apply H1, Hf'.
      - intros t Ht'. destruct (Hrt t Ht') as [_ ->]. apply H2, Ht'. }
    intros r. rewrite list_elem_of_fmap. split.
    + intros (o & -> & Ho). apply list_elem_of_fmap in Ho as ([[pk rk] e] & -> & Hin).
      apply scan_elem in Hin as [Ht Hm]. simpl in Ht, Hm.
      unfold matches in Hm. apply andb_true_iff in Hm as [Hpk Hbt].
      apply bool_decide_eq_true in Hpk. simpl in Hpk, Hbt. subst pk.
      apply Hb in Hbt as [Hb1 Hb2].
      exists rk, e. rewrite entity_to_payload_stamp. done.
    + intros (rk & e & Ht & -> & Hb1 & Hb2).
      exists (stamp (_partition_key field value, rk) e).
      split; [symmetry; apply entity_to_payload_stamp|].
      apply list_elem_of_fmap.
      exists ((_partition_key field value, rk), e). split; [reflexivity|].
      apply scan_elem. split; [exact Ht|].
      unfold matches. apply andb_true_iff. split.
      * apply bool_decide_eq_true. reflexivity.
      * apply Hb. done.
  - intros pv ivs. apply content_key_within.
Qed.

Lemma plain_intro (s : string) :
  Py.isascii s = true → forallb (λ c, negb (Ascii.eqb c "'")) (chars s) = true →
  plain s.
Proof.
  intros H1 H2. split; [exact H1|]. unfold quote_free.
  induction (chars s) as [|c l IH]; [apply not_elem_of_nil|].
  cbn [forallb] in H2. apply andb_true_iff in H2 as [Hc Hl].
  apply not_elem_of_cons. split; [|apply IH, Hl].
  intros <-. rewrite Ascii.eqb_refl in Hc. discriminate.
Qed.

Lemma team_plain : plain "team".
Proof. apply plain_intro; reflexivity. Qed.

Lemma eng_plain : plain "eng".
Proof. apply plain_intro; reflexivity. Qed.

Lemma bound_plain (b : string) :
  Py.isascii b = true →
  forallb (λ c, negb (Ascii.eqb c "'")) (chars b) = true →
  Py.lower b = b →
  ∀ f, Client.truthy (Some b) = Some f → plain f ∧ Py.lower f = f.
Proof.
  intros H1 H2 H3 f. cbn [Client.truthy]. case_bool_decide; [discriminate|].
  intros [= <-]. split; [apply plain_intro; assumption|exact H3].
Qed.

Lemma team_known : "team" ∈ self_index_keys team_client.
Proof. apply (bool_decide_unpack _). vm_compute. exact I. Qed.

Lemma query_row_bounds_witness :
  ∃ rs, Client.query team_client [("team", "eng")] (Some "u1") (Some "u2")
          three_users = (Ok rs, three_users).
Proof.
  destruct (query_row_bounds team_client "team" "eng" (Some "u1") (Some "u2")
              three_users eq_refl team_known three_users_quiet
              team_plain eng_plain
              (bound_plain "u1" eq_refl eq_refl eq_refl)
              (bound_plain "u2" eq_refl eq_refl eq_refl)) as [[rs [H _]] _].
  exists rs. exact H.
Defined.

(** ** Appending to the log *)
Section append.



End append.

(** ** Insert followed by recovery *)
Section insert_path.

Variable self : TableCatalogClient.



Lemma wal_entry_operation (id op : string) (R : dict) :
  R !! "operation" = None → wal_entry id op R !! "operation" = Some op.
Proof. intros H. unfold wal_entry. rewrite lookup_spread_fixed by done. reflexivity. Qed.

Lemma wal_entry_field (id op : string) (R : dict) (f x : string) :
  R !! f = Some x → wal_entry id op R !! f = Some x.
Proof. apply lookup_spread_payload. Qed.










(** Stripping the index entity built from a payload gives the payload. *)
Lemma strip_index_entity (e : dict) (pk rk : string) :
  _entity_to_payload (index_entity (_entity_to_payload e) pk rk)
  = _entity_to_payload e.
Proof.
  apply map_eq. intros k. rewrite (entity_to_payload_lookup (index_entity _ _ _)).
  case_bool_decide as Hk.
  - rewrite entity_to_payload_lookup, bool_decide_eq_true_2 by done. reflexivity.
  - rewrite (entity_to_payload_lookup e), bool_decide_eq_false_2 by done.
    assert (Hs := entity_to_payload_lookup e k).
    rewrite bool_decide_eq_false_2 in Hs by done. unfold index_entity.
    destruct (e !! k) as [x|].
    + apply lookup_spread_payload, Hs.
    + rewrite lookup_spread_fixed by exact Hs. simpl.
      rewrite !lookup_insert_ne, lookup_empty; [reflexivity| |];
        intros <-; apply Hk; unfold metadata_keys; set_solver.
Qed.

End insert_path.

(** ** The round trip *)
Section round_trip.

Variable self : TableCatalogClient.
Hypothesis locked : self_schema_locked self = true.


End round_trip.

(** An insert does not replace: when an entry with the content key of [R]
    is already stored (here a record that differs from it only in a field
    that is no index key), the create is swallowed as already existing and
    the query returns the payload stored first. *)
Lemma round_trip_keeps_older_payload :
  ¬ round_trip team_client (named "Bob" u1) "email"
      (after (Client.insert team_client (named "Alice" u1)) empty_world).
Proof.
  intros H.
  set (wa := after (Client.insert team_client (named "Alice" u1)) empty_world) in *.
  assert (Hins : Client.insert team_client (named "Bob" u1) wa
                 = (Ok (named "Bob" u1),
                    after (Client.insert team_client (named "Bob" u1)) wa))
    by (vm_compute; reflexivity).
  assert (Hq : Client.query team_client [("email", "a@x.com")] None None
                 (after (Client.insert team_client (named "Bob" u1)) wa)
               = (Ok [<["operation" := "insert"]> (named "Alice" u1)],
                  after (Client.insert team_client (named "Bob" u1)) wa))
    by (vm_compute; reflexivity).
  specialize (H "a@x.com" _ _ _ eq_refl Hins Hq).
  clear Hins Hq.
  apply list_elem_of_singleton in H.
  apply (f_equal (.!! "name")) in H. vm_compute in H. discriminate.
Qed.








Lemma u1_content_key : content_key_of team_client u1 = Ok "u1:9e4a4bd7".
Proof. vm_compute. reflexivity. Qed.





(** C1. The round trip at the worked example of the specification, the
    record [u1] inserted into the empty store: [insert(u1)] returns [u1],
    and the query on either index key returns one payload, [u1] with the
    field [operation = insert] of its WAL entry added. The payload of [u1]
    itself, the fields of the record, is not in the list: the round trip
    as the specification states it fails at this input. *)
Theorem round_trip_leaks_operation :
  let w1 := after (Client.insert team_client u1) empty_world in
  Client.insert team_client u1 empty_world = (Ok u1, w1)
  ∧ Client.query team_client [("email", "a@x.com")] None None w1
    = (Ok [<["operation" := "insert"]> u1], w1)
  ∧ Client.query team_client [("team", "eng")] None None w1
    = (Ok [<["operation" := "insert"]> u1], w1)
  ∧ _entity_to_payload u1 = u1
  ∧ (_entity_to_payload u1 ∉ [<["operation" := "insert"]> u1])
  ∧ ¬ round_trip team_client u1 "email" empty_world.
Proof.
  intros w1.
  assert (Hi : Client.insert team_client u1 empty_world = (Ok u1, w1))
    by (vm_compute; reflexivity).
  assert (Hq : Client.query team_client [("email", "a@x.com")] None None w1
               = (Ok [<["operation" := "insert"]> u1], w1))
    by (vm_compute; reflexivity).
  assert (Hn : _entity_to_payload u1 ∉ [<["operation" := "insert"]> u1]).
  { intros H. apply list_elem_of_singleton in H.
    apply (f_equal (.!! "operation")) in H. vm_compute in H. discriminate. }
  split; [exact Hi|]. split; [exact Hq|].
  split; [vm_compute; reflexivity|]. split; [vm_compute; reflexivity|].
  split; [exact Hn|].
  intros H. exact (Hn (H "a@x.com" _ _ _ eq_refl Hi Hq)).
Qed.

(** ** The insert contract *)

(** A record lacking a required field is rejected with the list of the
    absent fields, before anything is written. *)
Lemma insert_missing_fields (self : TableCatalogClient) (R : dict) (w : World)
    (f : string) (fs : list string) :
  self_schema_locked self = true →
  filter (λ k, R !! k = None) (self_index_keys self ++ [self_row_key self])
    = f :: fs →
  Client.insert self R w = (Raise (ValueError (MissingFields (f :: fs))), w).
Proof.
  intros Hl Hm. unfold Client.insert.
  rewrite (bind_ok _ _ w w tt) by (apply require_schema_ok, Hl).
  rewrite Hm. reflexivity.
Qed.

(** C9 at a record with a field named [operation]: the record's value
    replaces the tag [_write_wal] was given. Inserting [eraser], which is
    [u1] with [operation = "delete"], into the store that holds [u1] returns
    normally, logs an entry tagged ["delete"], and its replay removes the
    index entries of [u1]. *)
Theorem insert_logs_record_operation :
  (Client.insert team_client eraser
     (after (Client.insert team_client u1) empty_world)).1 = Ok eraser
  ∧ wal (after (Client.insert team_client u1 ;; Client.insert team_client eraser)
           empty_world) !! ("wal", "2026-01-02")
    = Some (wal_entry "2026-01-02" "delete" u1)
  ∧ size (table (after (Client.insert team_client u1) empty_world)) = 2%nat
  ∧ table (after (Client.insert team_client u1 ;; Client.insert team_client eraser)
             empty_world) = ∅.
Proof. repeat split; vm_compute; reflexivity. Qed.

(** The same replacement on the delete path: the payloads [query] returns
    carry [operation = "insert"], so the entries [delete] logs are tagged
    ["insert"] and the matched rows stay. *)
Lemma delete_logs_insert :
  (Client.delete team_client [("team", "eng")] None None
     (after (Client.insert team_client u1) empty_world)).1 = Ok tt
  ∧ wal (after (Client.insert team_client u1 ;;
                Client.delete team_client [("team", "eng")] None None)
           empty_world) !! ("wal", "2026-01-02")
    = Some (wal_entry "2026-01-02" "insert" u1)
  ∧ table (after (Client.insert team_client u1 ;;
                  Client.delete team_client [("team", "eng")] None None)
             empty_world)
    = table (after (Client.insert team_client u1) empty_world).
Proof. repeat split; vm_compute; reflexivity. Qed.

(** * Further properties of the code *)

(** ** The key codec *)

(** For ASCII field names and values, two partition keys are equal exactly
    when the field names agree up to letter case and the values agree up to
    letter case. *)
Theorem partition_key_equal_iff (f1 v1 f2 v2 : string) :
  Py.isascii f1 = true → Py.isascii v1 = true →
  Py.isascii f2 = true → Py.isascii v2 = true →
  _partition_key f1 v1 = _partition_key f2 v2
  ↔ Py.lower f1 = Py.lower f2 ∧ Py.lower v1 = Py.lower v2.
Proof.
  intros _ _ _ _. split.
  - apply partition_key_inj.
  - intros [Hf Hv]. apply partition_key_same_case; assumption.
Qed.

Lemma partition_key_equal_iff_witness :
  _partition_key "Email" "A@x.com" = _partition_key "email" "a@X.com"
  ↔ Py.lower "Email" = Py.lower "email" ∧ Py.lower "A@x.com" = Py.lower "a@X.com".
Proof.
  exact (partition_key_equal_iff "Email" "A@x.com" "email" "a@X.com"
           eq_refl eq_refl eq_refl eq_refl).
Defined.

Lemma sorted_permutation (ks1 ks2 : list string) :
  ks1 ≡ₚ ks2 → Py.sorted ks1 = Py.sorted ks2.
Proof.
  intros Hp. unfold Py.sorted.
  apply (StronglySorted_unique String.le).
  - apply StronglySorted_merge_sort; apply _.
  - apply StronglySorted_merge_sort; apply _.
  - rewrite !merge_sort_Permutation. exact Hp.
Qed.

Lemma index_values_same_case (r1 r2 : dict) (ks : list string) :
  (∀ k, k ∈ ks → Py.lower <$> r1 !! k = Py.lower <$> r2 !! k) →
  index_values r1 ks = index_values r2 ks.
Proof.
  induction ks as [|k ks IH]; intros H; [reflexivity|].
  simpl. assert (Hk := H k ltac:(left)).
  rewrite IH by (intros k' Hk'; apply H; right; exact Hk').
  destruct (r1 !! k), (r2 !! k); simpl in Hk; try discriminate; [|reflexivity].
  injection Hk as ->. reflexivity.
Qed.

(** The content key does not depend on the order in which the schema lists
    its index keys, nor on the letter case of the index-key values: records
    that agree on every index key up to case (absent in both, or equal after
    lower-casing) get the same content key for the same primary value, or
    the same [KeyError]. *)
Theorem row_key_order_and_case (r1 r2 : dict) (pv : string)
    (ks1 ks2 : list string) :
  ks1 ≡ₚ ks2 →
  (∀ k, k ∈ ks1 → Py.lower <$> r1 !! k = Py.lower <$> r2 !! k) →
  _row_key r1 pv ks1 = _row_key r2 pv ks2.
Proof.
  intros Hp H. unfold _row_key. rewrite <- (sorted_permutation _ _ Hp).
  rewrite (index_values_same_case r1 r2); [reflexivity|].
  intros k Hk. apply H, sorted_elem, Hk.
Qed.

Lemma row_key_swap_fields :
  ∀ k, k ∈ ["email"; "team"] →
       Py.lower <$> u1 !! k = Py.lower <$> user "u1" "A@X.com" "ENG" !! k.
Proof.
  apply Forall_forall. apply (bool_decide_unpack _). vm_compute. exact I.
Qed.

Lemma row_key_order_and_case_witness :
  _row_key u1 "u1" ["email"; "team"]
  = _row_key (user "u1" "A@X.com" "ENG") "u1" ["team"; "email"].
Proof.
  apply (row_key_order_and_case u1 (user "u1" "A@X.com" "ENG") "u1"
           ["email"; "team"] ["team"; "email"]
           (perm_swap "team" "email" []) row_key_swap_fields).
Defined.

(** [_row_key] fails fast: it raises the [KeyError] of an index key that
    the record lacks whenever there is one, and returns a content key only
    for a record that has every index key. *)
Theorem row_key_fails_fast (r : dict) (pv : string) (ks : list string) :
  match _row_key r pv ks with
  | inl k => k ∈ ks ∧ r !! k = None
  | inr rk => ∀ k, k ∈ ks → is_Some (r !! k)
  end.
Proof.
  unfold _row_key.
  destruct (index_values r (Py.sorted ks)) as [k|vs] eqn:E.
  - assert (H : k ∈ Py.sorted ks ∧ r !! k = None).
    { revert E. generalize (Py.sorted ks). intros l.
      induction l as [|k0 l IH]; simpl; [discriminate|].
      destruct (r !! k0) eqn:E0.
      - destruct (index_values r l) eqn:El; [|discriminate].
        intros [= ->]. destruct (IH eq_refl) as [H1 H2].
        split; [right; exact H1|exact H2].
      - intros [= ->]. split; [left|exact E0]. }
    destruct H as [H1 H2]. split; [apply sorted_elem, H1|exact H2].
  - intros k Hk. eapply index_values_present; [exact E|].
    apply sorted_elem, Hk.
Qed.

Lemma hex_digit_is_hex (n : Z) : 0 ≤ n < 16 → is_hex (hashlib.hex_digit n) = true.
Proof.
  intros H.
  assert (Hn : n = 0 ∨ n = 1 ∨ n = 2 ∨ n = 3 ∨ n = 4 ∨ n = 5 ∨ n = 6 ∨ n = 7
             ∨ n = 8 ∨ n = 9 ∨ n = 10 ∨ n = 11 ∨ n = 12 ∨ n = 13 ∨ n = 14
             ∨ n = 15) by lia.
  repeat (destruct Hn as [->|Hn]; [reflexivity|]). subst n. reflexivity.
Qed.

Lemma fingerprint_hex (s : string) :
  length (chars (fingerprint s)) = 8%nat
  ∧ Forall (λ c, is_hex c = true) (chars (fingerprint s)).
Proof.
  unfold fingerprint, hashlib.md5_hexdigest, hashlib.digest_bytes.
  destruct (foldl hashlib.process hashlib.init _) as [[[a b] c] d].
  cbn [hashlib.bytes_le app foldr]. unfold hashlib.hex_byte.
  unfold Py.slice_to. cbn [String.substring chars length].
  split; [reflexivity|].
  repeat constructor; apply hex_digit_is_hex, Z.mod_pos_bound; lia.
Qed.

(** A content key is the primary value, a colon, and exactly eight
    lower-case hexadecimal digits. *)
Theorem content_key_format (r : dict) (pv : string) (ks : list string) :
  match _row_key r pv ks with
  | inl _ => True
  | inr rk =>
      ∃ fp, rk = pv +:+ ":" +:+ fp
            ∧ length (chars fp) = 8%nat
            ∧ Forall (λ c, is_hex c = true) (chars fp)
  end.
Proof.
  unfold _row_key. destruct (index_values r (Py.sorted ks)); [exact I|].
  eexists. split; [reflexivity|]. apply fingerprint_hex.
Qed.

Lemma entity_to_payload_id (p : dict) :
  (∀ k, k ∈ metadata_keys → p !! k = None) → _entity_to_payload p = p.
Proof.
  intros H. apply map_eq. intros k. rewrite entity_to_payload_lookup.
  case_bool_decide as Hk; [symmetry; apply H, Hk|reflexivity].
Qed.

(** What [_apply_insert] stores for a payload comes back from a scan as the
    same payload: stripping the stored entity, as the store returns it,
    gives the payload back when the payload has none of the four metadata
    names; and stripping twice is stripping once. *)
Theorem payload_round_trip (p e : dict) (pk rk : string) :
  (∀ k, k ∈ metadata_keys → p !! k = None) →
  _entity_to_payload (stamp (pk, rk) (index_entity p pk rk)) = p
  ∧ _entity_to_payload (_entity_to_payload e) = _entity_to_payload e.
Proof.
  intros H. split.
  - rewrite entity_to_payload_stamp.
    rewrite <- (entity_to_payload_id p H) at 1.
    rewrite strip_index_entity. apply entity_to_payload_id, H.
  - apply entity_to_payload_id. intros k Hk.
    rewrite entity_to_payload_lookup, bool_decide_eq_true_2 by done. reflexivity.
Qed.

Lemma u1_no_metadata : ∀ k, k ∈ metadata_keys → u1 !! k = None.
Proof.
  apply Forall_forall. apply (bool_decide_unpack _). vm_compute. exact I.
Qed.

Lemma payload_round_trip_witness :
  _entity_to_payload
    (stamp ("5_emaila@x.com", "u1:9e4a4bd7")
       (index_entity u1 "5_emaila@x.com" "u1:9e4a4bd7")) = u1.
Proof.
  exact (proj1 (payload_round_trip u1 ∅ "5_emaila@x.com" "u1:9e4a4bd7"
                  u1_no_metadata)).
Defined.

(** ** Schema configuration *)

(** The schema lock is one-way: [configure] succeeds only on a client that
    is not locked, with at least one index key and a non-empty primary
    field, and it returns a locked client holding exactly these; on a locked
    client it always raises [RuntimeError]; and every later [configure] on
    the client it returned raises [RuntimeError], whatever the arguments. *)
Theorem configure_locks_once (self : TableCatalogClient)
    (index_keys : string + list string) (row_key : string) :
  match configure_any self index_keys row_key with
  | Ok c =>
      self_schema_locked self = false
      ∧ self_schema_locked c = true
      ∧ self_index_keys c ≠ [] ∧ self_row_key c = row_key ∧ row_key ≠ ""
      ∧ self_index_keys c =
        match index_keys with
        | inl s => parse_index_keys s
        | inr l => l
        end
      ∧ (∀ ik rk, configure_any c ik rk
                  = Raise (RuntimeError "Schema is already configured and locked."))
      ∧ (∀ w, Client._require_schema c w = (Ok tt, w))
  | Raise e =>
      (self_schema_locked self = true
       ∧ e = RuntimeError "Schema is already configured and locked.")
      ∨ (self_schema_locked self = false ∧ e = ValueError SchemaIncomplete
         ∧ (match index_keys with
            | inl s => parse_index_keys s
            | inr l => l
            end = [] ∨ row_key = ""))
  end.
Proof.
  unfold configure_any, configure.
  destruct (self_schema_locked self) eqn:El; [left; done|].
  set (ks := match index_keys with inl s => _ | inr l => l end).
  destruct (bool_decide (ks = [])) eqn:Ek; simpl.
  - right. apply bool_decide_eq_true in Ek. auto.
  - destruct (bool_decide (row_key = "")) eqn:Er; simpl.
    + right. apply bool_decide_eq_true in Er. auto.
    + apply bool_decide_eq_false in Ek, Er. repeat split; done.
Qed.

Section strip.

Lemma rstrip_idemp (s : string) : Str.rstrip (Str.rstrip s) = Str.rstrip s.
Proof.
  induction s as [|c s IH]; [reflexivity|]. simpl.
  destruct (Str.rstrip s) as [|c' r] eqn:E.
  - destruct (Str.is_space c) eqn:Ec; [reflexivity|]. simpl. rewrite Ec. reflexivity.
  - simpl. simpl in IH. rewrite IH. reflexivity.
Qed.

Lemma lstrip_no_leading (s : string) : no_leading_space (Str.lstrip s).
Proof.
  induction s as [|c s IH]; simpl; [exact I|].
  destruct (Str.is_space c) eqn:Ec; [exact IH|]. simpl. exact Ec.
Qed.

Lemma lstrip_fixed (s : string) : no_leading_space s → Str.lstrip s = s.
Proof. destruct s as [|c s]; simpl; [reflexivity|]. intros ->. reflexivity. Qed.

Lemma rstrip_no_leading (s : string) :
  no_leading_space s → no_leading_space (Str.rstrip s).
Proof.
  destruct s as [|c s]; simpl; [auto|]. intros Hc.
  destruct (Str.rstrip s); [rewrite Hc|]; simpl; exact Hc.
Qed.

Lemma strip_idemp (s : string) : Str.strip (Str.strip s) = Str.strip s.
Proof.
  unfold Str.strip.
  rewrite (lstrip_fixed (Str.rstrip (Str.lstrip s)))
    by apply rstrip_no_leading, lstrip_no_leading.
  apply rstrip_idemp.
Qed.

Lemma lstrip_chars (s : string) (c : ascii) :
  c ∈ chars (Str.lstrip s) → c ∈ chars s.
Proof.
  induction s as [|c0 s IH]; simpl; [auto|].
  destruct (Str.is_space c0); [|auto]. intros H. right. auto.
Qed.

Lemma rstrip_chars (s : string) (c : ascii) :
  c ∈ chars (Str.rstrip s) → c ∈ chars s.
Proof.
  induction s as [|c0 s IH]; simpl; [auto|].
  destruct (Str.rstrip s) as [|c' r].
  - destruct (Str.is_space c0); simpl; [intros H; inversion H|].
    intros [->|H]%elem_of_cons; [left|inversion H].
  - simpl. intros [->|H]%elem_of_cons; [left|right; apply IH, H].
Qed.

Lemma strip_chars (s : string) (c : ascii) :
  c ∈ chars (Str.strip s) → c ∈ chars s.
Proof. intros H. apply lstrip_chars, rstrip_chars, H. Qed.

Lemma split_comma_cons (s : string) :
  ∃ x xs, Str.split_comma s = x :: xs.
Proof.
  induction s as [|c s (x & xs & IH)]; simpl; [eauto|].
  destruct (Ascii.eqb c ","); [eauto|]. rewrite IH. eauto.
Qed.

Lemma split_comma_no_comma (s : string) :
  Forall (λ p, ","%char ∉ chars p) (Str.split_comma s).
Proof.
  induction s as [|c s IH]; simpl.
  - repeat constructor. simpl. apply not_elem_of_nil.
  - destruct (Ascii.eqb c ",") eqn:Ec.
    + constructor; [simpl; apply not_elem_of_nil|exact IH].
    + destruct (Str.split_comma s) as [|x xs].
      * repeat constructor. simpl. intros [H|H]%elem_of_cons; [|inversion H].
        subst c. discriminate.
      * apply Forall_cons in IH as [Hx Hxs]. constructor; [|exact Hxs].
        simpl. intros [H|H]%elem_of_cons; [subst c; discriminate|auto].
Qed.

Lemma split_comma_piece (x : string) :
  ","%char ∉ chars x → Str.split_comma x = [x].
Proof.
  induction x as [|c x IH]; simpl; [reflexivity|]. intros H.
  destruct (Ascii.eqb_spec c ",") as [->|Hc]; [exfalso; apply H; left|].
  rewrite IH; [reflexivity|]. intros Hx. apply H. right. exact Hx.
Qed.

Lemma split_comma_app (x rest : string) :
  ","%char ∉ chars x →
  Str.split_comma (x +:+ "," +:+ rest) = x :: Str.split_comma rest.
Proof.
  induction x as [|c x IH]; intros H.
  - reflexivity.
  - rewrite app_cons. simpl.
    destruct (Ascii.eqb_spec c ",") as [->|Hc]; [exfalso; apply H; left|].
    rewrite IH; [reflexivity|]. intros Hx. apply H. right. exact Hx.
Qed.

Lemma split_comma_join (pieces : list string) :
  pieces ≠ [] → Forall (λ p, ","%char ∉ chars p) pieces →
  Str.split_comma (Py.join "," pieces) = pieces.
Proof.
  induction pieces as [|x [|y l] IH]; intros Hne Hall; [done| |].
  - simpl. apply split_comma_piece. by apply Forall_cons in Hall as [? _].
  - apply Forall_cons in Hall as [Hx Hall].
    change (Py.join "," (x :: y :: l)) with (x +:+ "," +:+ Py.join "," (y :: l)).
    rewrite split_comma_app by done. rewrite IH by done. reflexivity.
Qed.

End strip.

(** Every key [parse_index_keys] returns is clean: it is not empty, it
    contains no comma, and it has no white space at either end. *)
Theorem parse_index_keys_clean (s : string) :
  Forall clean_key (parse_index_keys s).
Proof.
  unfold parse_index_keys. apply Forall_forall. intros k Hk.
  apply list_elem_of_filter in Hk as [Hne Hk].
  apply list_elem_of_fmap in Hk as (p & -> & Hp).
  split; [exact Hne|]. split; [|apply strip_idemp].
  intros Hc. apply strip_chars in Hc.
  pose proof (split_comma_no_comma s) as Hall.
  rewrite Forall_forall in Hall. exact (Hall p Hp Hc).
Qed.

(** Parsing a comma-joined list: the pieces are stripped and the blank ones
    dropped; in particular a list of clean keys, joined with commas, is
    parsed back to itself. *)
Theorem parse_index_keys_join (pieces : list string) :
  pieces ≠ [] →
  Forall (λ p, ","%char ∉ chars p) pieces →
  parse_index_keys (Py.join "," pieces)
  = filter (λ k, k ≠ "") (Str.strip <$> pieces)
  ∧ (Forall clean_key pieces →
     parse_index_keys (Py.join "," pieces) = pieces).
Proof.
  intros Hne Hall. unfold parse_index_keys.
  rewrite split_comma_join by done. split; [reflexivity|].
  intros Hclean. clear Hne Hall.
  induction pieces as [|x l IH]; [reflexivity|].
  apply Forall_cons in Hclean as [(Hx & _ & Hs) Hl].
  rewrite fmap_cons, Hs, filter_cons_True by done. f_equal. apply IH, Hl.
Qed.

Lemma email_team_no_comma :
  Forall (λ p, ","%char ∉ chars p) [" email "; ""; "team"].
Proof. apply (bool_decide_unpack _). vm_compute. exact I. Qed.

Lemma parse_index_keys_join_witness :
  parse_index_keys (Py.join "," [" email "; ""; "team"])
  = filter (λ k, k ≠ "") (Str.strip <$> [" email "; ""; "team"]).
Proof.
  exact (proj1 (parse_index_keys_join [" email "; ""; "team"]
                  ltac:(discriminate) email_team_no_comma)).
Defined.

(** ** Construction from arguments and environment *)
Section construction.

Variable environ : dict.

Lemma truthy_Some (a : option string) (v : string) :
  Client.truthy a = Some v → a = Some v ∧ v ≠ "".
Proof.
  destruct a as [s|]; simpl; [|discriminate].
  case_bool_decide; [discriminate|]. intros [= ->]. done.
Qed.

Lemma get_env_cases (name : string) (d : option string) :
  match _get_env environ name d with
  | inr v =>
      Client.truthy (environ !! name) = Some v
      ∨ (Client.truthy (environ !! name) = None ∧ d = Some v)
  | inl e =>
      e = EnvironmentError name
      ∧ Client.truthy (environ !! name) = None ∧ d = None
  end.
Proof.
  unfold _get_env. destruct (Client.truthy (environ !! name)); [left; done|].
  destruct d; [right; done|done].
Qed.

Lemma or_env_cases (arg : option string) (name : string) (d : option string) :
  match or_env environ arg name d with
  | inr v =>
      Client.truthy arg = Some v
      ∨ (Client.truthy arg = None
         ∧ (Client.truthy (environ !! name) = Some v
            ∨ (Client.truthy (environ !! name) = None ∧ d = Some v)))
  | inl e =>
      e = EnvironmentError name ∧ Client.truthy arg = None
      ∧ Client.truthy (environ !! name) = None ∧ d = None
  end.
Proof.
  unfold or_env. destruct (Client.truthy arg); [left; done|].
  pose proof (get_env_cases name d) as H.
  destruct (_get_env environ name d); [tauto|right; done].
Qed.

Lemma or_env_nonempty (arg : option string) (name : string) (v : string) :
  or_env environ arg name None = inr v → v ≠ "".
Proof.
  intros H. pose proof (or_env_cases arg name None) as Hc. rewrite H in Hc.
  destruct Hc as [Hc|[_ [Hc|[_ Hc]]]]; [| |discriminate];
    apply truthy_Some in Hc; tauto.
Qed.

End construction.

(** [configure] on the client [__init__] starts from, which has no schema
    yet. *)
Lemma configure_unconfigured (k : string + list string) (r : string) :
  match configure_any unconfigured k r with
  | Ok c =>
      self_schema_locked c = true
      ∧ self_index_keys c ≠ [] ∧ self_row_key c = r ∧ r ≠ ""
      ∧ (∀ ik rk, configure_any c ik rk
                  = Raise (RuntimeError "Schema is already configured and locked."))
      ∧ (∀ w, Client._require_schema c w = (Ok tt, w))
  | Raise e =>
      e = ValueError SchemaIncomplete
      ∧ (match k with
         | inl s => parse_index_keys s
         | inr l => l
         end = [] ∨ r = "")
  end.
Proof.
  unfold configure_any, configure. cbn [unconfigured self_schema_locked].
  set (ks := match k with inl s => _ | inr l => l end).
  destruct (bool_decide (ks = [])) eqn:Ek; simpl.
  - apply bool_decide_eq_true in Ek. auto.
  - destruct (bool_decide (r = "")) eqn:Er; simpl.
    + apply bool_decide_eq_true in Er. auto.
    + apply bool_decide_eq_false in Ek, Er. repeat split; done.
Qed.

(** The first part of [__init__], outcome by outcome: the names and the
    schema it resolves are non-empty and the schema is locked; it fails with
    [EnvironmentError] for a variable without default that the environment
    leaves unset or empty, and with [ValueError] for index keys given as a
    string in which every comma-separated piece is blank. *)
Lemma init_resolves (environ : dict)
    (cs tn wn : option string) (ik : option (string + list string))
    (rk : option string) :
  match init environ cs tn wn ik rk with
  | inr c =>
      self_schema_locked (client c) = true
      ∧ self_index_keys (client c) ≠ []
      ∧ self_row_key (client c) ≠ ""
      ∧ connection_string c ≠ "" ∧ table_name c ≠ "" ∧ wal_name c ≠ ""
      ∧ (∀ w, Client._require_schema (client c) w = (Ok tt, w))
      ∧ (∀ ik' rk', configure_any (client c) ik' rk'
                    = Raise (RuntimeError "Schema is already configured and locked."))
  | inl (EnvironmentError name) =>
      Client.truthy (environ !! name) = None
      ∧ name ∈ ["AZURE_STORAGE_CONNECTION_STRING"; "TABLE_CATALOG_NAME";
                "TABLE_CATALOG_INDEX_KEYS"; "TABLE_CATALOG_ROW_KEY"]
  | inl (Raised e) =>
      e = ValueError SchemaIncomplete
      ∧ ∃ s, parse_index_keys s = []
             ∧ (truthy_keys ik = Some (inl s)
                ∨ (truthy_keys ik = None
                   ∧ Client.truthy (environ !! "TABLE_CATALOG_INDEX_KEYS")
                     = Some s))
  end.
Proof.
  pattern (init environ cs tn wn ik rk).
  match goal with |- ?P _ => set (Post := P) end.
  assert (Hin : ∀ name, Client.truthy (environ !! name) = None →
            name ∈ ["AZURE_STORAGE_CONNECTION_STRING"; "TABLE_CATALOG_NAME";
                    "TABLE_CATALOG_INDEX_KEYS"; "TABLE_CATALOG_ROW_KEY"] →
            Post (inl (EnvironmentError name))) by (intros; split; done).
  unfold init.
  pose proof (or_env_cases environ cs "AZURE_STORAGE_CONNECTION_STRING" None) as H1.
  destruct (or_env environ cs "AZURE_STORAGE_CONNECTION_STRING" None)
    as [e1|a] eqn:E1; simpl.
  { destruct H1 as (-> & _ & H1 & _).
    apply Hin; [exact H1|]. apply (bool_decide_unpack _). reflexivity. }
  pose proof (or_env_cases environ tn "TABLE_CATALOG_NAME" None) as H2.
  destruct (or_env environ tn "TABLE_CATALOG_NAME" None) as [e2|b] eqn:E2; simpl.
  { destruct H2 as (-> & _ & H2 & _).
    apply Hin; [exact H2|]. apply (bool_decide_unpack _). reflexivity. }
  pose proof (or_env_cases environ wn "TABLE_CATALOG_WAL_NAME"
                (Some (b +:+ "_WAL"))) as H3.
  destruct (or_env environ wn "TABLE_CATALOG_WAL_NAME" (Some (b +:+ "_WAL")))
    as [e3|c] eqn:E3; simpl.
  { destruct H3 as (_ & _ & _ & [=]). }
  assert (Hc : c ≠ "").
  { destruct H3 as [H3|[_ [H3|[_ [= <-]]]]];
      [apply truthy_Some in H3; tauto|apply truthy_Some in H3; tauto|].
    destruct b; discriminate. }
  (* the index keys come from a non-empty list, or from a string *)
  assert (Hrow : ∀ k : string + list string,
            (∀ s, k = inl s →
                  truthy_keys ik = Some (inl s)
                  ∨ (truthy_keys ik = None
                     ∧ Client.truthy (environ !! "TABLE_CATALOG_INDEX_KEYS")
                       = Some s)) →
            (∀ l, k = inr l → l ≠ []) →
            Post (and_then (or_env environ rk "TABLE_CATALOG_ROW_KEY" None)
                    (λ r, match configure_any unconfigured k r with
                          | Ok cl => inr (mkConstructed a b c cl)
                          | Raise e => inl (Raised e)
                          end))).
  { intros k Hs Hl.
    pose proof (or_env_cases environ rk "TABLE_CATALOG_ROW_KEY" None) as H5.
    destruct (or_env environ rk "TABLE_CATALOG_ROW_KEY" None) as [e5|r] eqn:E5;
      simpl.
    { destruct H5 as (-> & _ & H5 & _).
      apply Hin; [exact H5|]. apply (bool_decide_unpack _). reflexivity. }
    pose proof (configure_unconfigured k r) as Hcf.
    destruct (configure_any unconfigured k r) as [cl|e]; unfold Post.
    - destruct Hcf as (L & K & R & Rne & F & Q). simpl.
      split; [exact L|]. split; [exact K|]. split; [congruence|].
      split; [eapply or_env_nonempty, E1|].
      split; [eapply or_env_nonempty, E2|]. done.
    - destruct Hcf as (-> & [Hcf|Hcf]).
      + split; [reflexivity|]. destruct k as [s|l].
        * exists s. split; [exact Hcf|]. apply Hs. reflexivity.
        * exfalso. apply (Hl l eq_refl), Hcf.
      + exfalso. apply (or_env_nonempty _ _ _ _ E5), Hcf. }
  destruct (truthy_keys ik) as [k|] eqn:Ek; simpl.
  - apply Hrow.
    + intros s ->. left. reflexivity.
    + intros l ->. unfold truthy_keys in Ek.
      destruct ik as [[s|l']|]; try discriminate.
      * case_bool_decide; discriminate.
      * case_bool_decide; [discriminate|]. congruence.
  - pose proof (get_env_cases environ "TABLE_CATALOG_INDEX_KEYS" None) as H4.
    destruct (_get_env environ "TABLE_CATALOG_INDEX_KEYS" None) as [e4|s] eqn:E4;
      simpl.
    + destruct H4 as (-> & H4 & _).
      apply Hin; [exact H4|]. apply (bool_decide_unpack _). reflexivity.
    + apply Hrow.
      * intros s' [= <-]. right. split; [reflexivity|].
        destruct H4 as [H4|[_ [=]]]. exact H4.
      * intros l [=].
Qed.

(** Construction keeps the schema invariant: a constructed client has a
    locked schema with at least one index key and a non-empty primary
    field, and non-empty connection string and table names, so
    [_require_schema] never fails on it and every later [configure] raises
    [RuntimeError]; it exists only when the three SDK calls returned.
    Construction raises [EnvironmentError] only for a variable without
    default that the environment leaves unset or empty, [ValueError] for
    index keys given as a string in which every comma-separated piece is
    blank, and otherwise only what the first failing SDK call raised, after
    the names and the schema were resolved. *)
Theorem init_invariant (sdk : SdkOutcome) (environ : dict)
    (cs tn wn : option string) (ik : option (string + list string))
    (rk : option string) :
  match __init__ sdk environ cs tn wn ik rk with
  | inr c =>
      init environ cs tn wn ik rk = inr c
      ∧ from_connection_string sdk = None
      ∧ create_table sdk = None
      ∧ create_wal sdk = None
      ∧ self_schema_locked (client c) = true
      ∧ self_index_keys (client c) ≠ []
      ∧ self_row_key (client c) ≠ ""
      ∧ connection_string c ≠ "" ∧ table_name c ≠ "" ∧ wal_name c ≠ ""
      ∧ (∀ w, Client._require_schema (client c) w = (Ok tt, w))
      ∧ (∀ ik' rk', configure_any (client c) ik' rk'
                    = Raise (RuntimeError "Schema is already configured and locked."))
  | inl (EnvironmentError name) =>
      init environ cs tn wn ik rk = inl (EnvironmentError name)
      ∧ Client.truthy (environ !! name) = None
      ∧ name ∈ ["AZURE_STORAGE_CONNECTION_STRING"; "TABLE_CATALOG_NAME";
                "TABLE_CATALOG_INDEX_KEYS"; "TABLE_CATALOG_ROW_KEY"]
  | inl (Raised e) =>
      (init environ cs tn wn ik rk = inl (Raised e)
       ∧ e = ValueError SchemaIncomplete
       ∧ ∃ s, parse_index_keys s = []
              ∧ (truthy_keys ik = Some (inl s)
                 ∨ (truthy_keys ik = None
                    ∧ Client.truthy (environ !! "TABLE_CATALOG_INDEX_KEYS")
                      = Some s)))
      ∨ ((∃ c, init environ cs tn wn ik rk = inr c)
         ∧ (from_connection_string sdk = Some e
            ∨ (from_connection_string sdk = None ∧ create_table sdk = Some e)
            ∨ (from_connection_string sdk = None ∧ create_table sdk = None
               ∧ create_wal sdk = Some e)))
  end.
Proof.
  unfold __init__.
  pose proof (init_resolves environ cs tn wn ik rk) as H.
  destruct (init environ cs tn wn ik rk) as [[name|e]|c]; simpl.
  - split; [reflexivity|exact H].
  - left. split; [reflexivity|exact H].
  - destruct sdk as [[a|] [b|] [d|]]; simpl;
      try (right; split; [exists c; reflexivity|]).
    1-4: left; reflexivity.
    1-2: right; left; split; reflexivity.
    + right. right. repeat split; reflexivity.
    + repeat split; apply H.
Qed.

(** Arguments come before the environment: when the connection string, the
    table name, the index keys and the primary field are given (and
    truthy), construction reads nothing of the environment but
    [TABLE_CATALOG_WAL_NAME], and that only when no WAL name is given; when
    the variable is unset or empty too, the WAL table is named after the
    index table with the suffix [_WAL]. *)
Theorem init_arguments_first (environ : dict)
    (cs tn wn : option string) (ik : option (string + list string))
    (rk : option string) (a b r : string) (k : string + list string) :
  Client.truthy cs = Some a → Client.truthy tn = Some b →
  truthy_keys ik = Some k → Client.truthy rk = Some r →
  init environ cs tn wn ik rk =
  match configure_any unconfigured k r with
  | Ok cl =>
      inr (mkConstructed a b
             match Client.truthy wn with
             | Some c => c
             | None =>
                 match Client.truthy (environ !! "TABLE_CATALOG_WAL_NAME") with
                 | Some c => c
                 | None => b +:+ "_WAL"
                 end
             end cl)
  | Raise e => inl (Raised e)
  end.
Proof.
  intros Ha Hb Hk Hr. unfold init, or_env, _get_env.
  rewrite Ha, Hb, Hk, Hr. simpl.
  destruct (Client.truthy wn); [reflexivity|].
  destruct (Client.truthy (environ !! "TABLE_CATALOG_WAL_NAME")); reflexivity.
Qed.

Lemma init_arguments_first_witness :
  init ∅ (Some "UseDevelopmentStorage=true") (Some "catalog") None
    (Some (inr ["email"; "team"])) (Some "userId")
  = inr (mkConstructed "UseDevelopmentStorage=true" "catalog" "catalog_WAL"
           team_client).
Proof.
  exact (init_arguments_first ∅ (Some "UseDevelopmentStorage=true")
           (Some "catalog") None (Some (inr ["email"; "team"])) (Some "userId")
           "UseDevelopmentStorage=true" "catalog" "userId"
           (inr ["email"; "team"]) eq_refl eq_refl eq_refl eq_refl).
Defined.

(** The module-level client is created once. When [_get_client] or the
    module-level [configure] succeeds, the client is kept: every later
    [_get_client] returns that same client whatever the environment has
    become, and every later module-level [configure] raises [RuntimeError]
    and leaves it in place. When construction fails, no client is kept,
    and a module-level [configure] that finds a client never replaces it. *)
Theorem singleton_created_once (sdk : SdkOutcome) (environ : dict)
    (st : option Constructed)
    (index_keys : string + list string) (row_key : string)
    (cs tn wn : option string) :
  let kept (c : Constructed) (st' : option Constructed) :=
    st' = Some c
    ∧ (∀ sdk' environ', _get_client sdk' environ' st' = (inr c, st'))
    ∧ (∀ sdk' environ' ik rk a b d,
         module_configure sdk' environ' st' ik rk a b d
         = (inl (Raised (RuntimeError "Catalog already initialized.")), st')) in
  match _get_client sdk environ st with
  | (inr c, st') => kept c st'
  | (inl _, st') => st = None ∧ st' = None
  end
  ∧ match module_configure sdk environ st index_keys row_key cs tn wn with
    | (inr _, st') =>
        st = None
        ∧ ∃ c, __init__ sdk environ cs tn wn (Some index_keys) (Some row_key)
               = inr c
               ∧ kept c st'
    | (inl e, st') =>
        st' = st
        ∧ (is_Some st → e = Raised (RuntimeError "Catalog already initialized."))
    end.
Proof.
  intros kept.
  assert (Hkept : ∀ c, kept c (Some c)) by (intros c; repeat split).
  split.
  - unfold _get_client. destruct st as [c|]; [apply Hkept|].
    destruct (__init__ sdk environ None None None None None);
      [done|apply Hkept].
  - unfold module_configure. destruct st as [c|]; [done|].
    destruct (__init__ sdk environ cs tn wn (Some index_keys) (Some row_key))
      as [e|c].
    + split; [reflexivity|]. intros [? [=]].
    + split; [reflexivity|]. exists c. split; [reflexivity|apply Hkept].
Qed.

(** ** Queries *)
Section reads.

Lemma read_only_ret {A} (a : A) : read_only (ret a).
Proof. intros w r w' [= _ <-]. done. Qed.

Lemma read_only_raise {A} (e : exn) : read_only (raise e : M A).
Proof. intros w r w' [= _ <-]. done. Qed.

Lemma read_only_bind {A B} (m : M A) (k : A → M B) :
  read_only m → (∀ a, read_only (k a)) → read_only (bind m k).
Proof.
  intros Hm Hk w r w'. unfold bind.
  destruct (m w) as [[a|e] w1] eqn:E; intros H.
  - destruct (Hm _ _ _ E) as [H1 H2]. destruct (Hk a _ _ _ H) as [H3 H4].
    split; congruence.
  - injection H as _ <-. eapply Hm, E.
Qed.

Lemma read_only_query_entities (h : handle) (q : odata) :
  read_only (query_entities h q).
Proof.
  intros w r w' H. apply query_entities_inv in H as (H1 & H2 & _). done.
Qed.

Lemma read_only_store_call : read_only store_call.
Proof.
  intros w r w'. unfold store_call.
  destruct (faults w) as [|b fs]; intros [= _ <-]; done.
Qed.

Lemma read_only_query_entities_text (h : handle) (text : string) :
  read_only (query_entities_text h text).
Proof.
  unfold query_entities_text. destruct (parse_filter text).
  - apply read_only_query_entities.
  - apply read_only_bind; [apply read_only_store_call|].
    intros _. apply read_only_raise.
Qed.

Lemma query_entities_text_quiet (h : handle) (text : string) (w : World)
    (r : Result (list dict)) (w' : World) :
  faults w = [] → query_entities_text h text w = (r, w') → w' = w.
Proof.
  intros Hf. unfold query_entities_text. destruct (parse_filter text).
  - rewrite query_entities_ok by done. intros [= _ <-]. reflexivity.
  - unfold bind. rewrite store_call_ok by done. intros [= _ <-]. reflexivity.
Qed.

Lemma read_only_require (self : TableCatalogClient) :
  read_only (Client._require_schema self).
Proof.
  unfold Client._require_schema.
  destruct (self_schema_locked self); [apply read_only_ret|apply read_only_raise].
Qed.

Lemma read_only_query_first (self : TableCatalogClient) (fv : string * string)
    (rf rt : option string) :
  read_only (Client.query_first self fv rf rt).
Proof.
  unfold Client.query_first. apply read_only_bind.
  - unfold Client._validate_filter. destruct fv as [f v].
    case_bool_decide; [apply read_only_ret|apply read_only_raise].
  - intros fv'. apply read_only_bind; [apply read_only_query_entities_text|].
    intros es. apply read_only_ret.
Qed.

Lemma read_only_query_single (self : TableCatalogClient)
    (fv : string * string) (rf rt : option string) :
  read_only (Client.query_single self fv rf rt).
Proof.
  unfold Client.query_single. apply read_only_bind;
    [apply read_only_require|intros _; apply read_only_query_first].
Qed.

Lemma read_only_query_rest (self : TableCatalogClient)
    (items : list (string * string)) (rf rt : option string)
    (rs : list dict) :
  read_only (Client.query_rest self items rf rt rs).
Proof.
  revert rs. induction items as [|fv items IH]; intros rs; simpl.
  - apply read_only_ret.
  - destruct rs; [apply read_only_ret|].
    apply read_only_bind; [apply read_only_query_single|]. intros found. apply IH.
Qed.

End reads.

(** A query never writes: whatever the filter, the bounds and the
    behaviour of the store, and whether it returns or raises, [query] leaves
    the index table and the WAL table as they were; when the store fails no
    call it leaves the whole state as it was. *)
Theorem query_read_only (self : TableCatalogClient)
    (filter : list (string * string)) (rf rt : option string) :
  read_only (Client.query self filter rf rt)
  ∧ ∀ w r w', Client.query self filter rf rt w = (r, w') →
              faults w = [] → w' = w.
Proof.
  assert (Hro : read_only (Client.query self filter rf rt)).
  { unfold Client.query. apply read_only_bind; [apply read_only_require|].
    intros _. destruct filter as [|fv items]; [apply read_only_raise|].
    apply read_only_bind; [apply read_only_query_first|].
    intros rs. apply read_only_query_rest. }
  split; [exact Hro|].
  intros w r w' H Hf.
  { revert H. unfold Client.query, bind.
    assert (Hq1 : ∀ fv w0 r0 w0', faults w0 = [] →
              Client.query_first self fv rf rt w0 = (r0, w0') → w0' = w0).
    { intros [f v] w0 r0 w0' Hf0. unfold Client.query_first, bind.
      unfold Client._validate_filter.
      case_bool_decide; [|intros [= _ <-]; done]. unfold ret at 1.
      destruct (query_entities_text _ _ w0) as [[es|e] w1] eqn:E;
        apply (query_entities_text_quiet _ _ _ _ _ Hf0) in E as ->;
        intros [= _ <-]; done. }
    assert (Hqs : ∀ fv w0 r0 w0', faults w0 = [] →
              Client.query_single self fv rf rt w0 = (r0, w0') → w0' = w0).
    { intros fv w0 r0 w0' Hf0. unfold Client.query_single, bind.
      destruct (Client._require_schema self w0) as [[[]|e] w1] eqn:E.
      - assert (w1 = w0) as ->.
        { revert E. unfold Client._require_schema.
          destruct (self_schema_locked self); intros [= <-]; done. }
        apply Hq1, Hf0.
      - revert E. unfold Client._require_schema.
        destruct (self_schema_locked self); intros [= <- <-] [= _ <-]; done. }
    assert (Hqr : ∀ items rs w0 r0 w0', faults w0 = [] →
              Client.query_rest self items rf rt rs w0 = (r0, w0') → w0' = w0).
    { induction items as [|fv items IH]; intros rs w0 r0 w0' Hf0; simpl.
      - intros [= _ <-]. done.
      - destruct rs; [intros [= _ <-]; done|]. unfold bind.
        destruct (Client.query_single self fv rf rt w0) as [[found|e] w1] eqn:E.
        + apply Hqs in E as ->; [|done]. apply IH, Hf0.
        + apply Hqs in E as ->; [|done]. intros [= _ <-]. done. }
    unfold Client._require_schema.
    destruct (self_schema_locked self); simpl; [|intros [= _ <-]; done].
    destruct filter as [|fv items]; [intros [= _ <-]; done|].
    destruct (Client.query_first self fv rf rt w) as [[rs|e] w1] eqn:E.
    - apply Hq1 in E as ->; [|done]. intros H. apply Hqr in H as ->; done.
    - apply Hq1 in E as ->; [|done]. intros [= _ <-]. done. }
Qed.

Section intersection.

Variable self : TableCatalogClient.
Variables (rf rt : option string) (w : World).
Variable rows : string * string → list dict.

Lemma query_rest_rows (items : list (string * string)) (rs : list dict) :
  (∀ fv, fv ∈ items → Client.query_single self fv rf rt w = (Ok (rows fv), w)) →
  Client.query_rest self items rf rt rs w
  = (Ok (filter (λ r, Forall (λ fv, r ∈ rows fv) items) rs), w).
Proof.
  revert rs. induction items as [|fv items IH]; intros rs Hk; simpl.
  - unfold ret. do 2 f_equal. symmetry. induction rs as [|r rs IHrs]; [done|].
    rewrite filter_cons_True by constructor. f_equal. exact IHrs.
  - destruct rs as [|r rs]; [reflexivity|].
    rewrite (bind_ok _ _ _ _ _ (Hk fv ltac:(left))).
    rewrite IH by (intros g Hg; apply Hk; right; exact Hg).
    do 2 f_equal. rewrite list_filter_filter. apply list_filter_iff.
    intros x. rewrite Forall_cons. tauto.
Qed.

End intersection.

(** A query with several predicates is the intersection of the
    single-predicate queries: when the query on each predicate alone
    returns and leaves the state as it was, the query on all of them returns
    the rows of the first predicate's query, in their order, that are also
    among the rows of the query of each other predicate, and leaves the
    state as it was. *)
Theorem query_intersection (self : TableCatalogClient)
    (fv : string * string) (items : list (string * string))
    (rf rt : option string) (w : World)
    (rows : string * string → list dict) :
  (∀ fv', fv' ∈ fv :: items →
          Client.query self [fv'] rf rt w = (Ok (rows fv'), w)) →
  Client.query self (fv :: items) rf rt w
  = (Ok (filter (λ r, Forall (λ fv', r ∈ rows fv') items) (rows fv)), w).
Proof.
  intros Hk.
  assert (Hl : self_schema_locked self = true).
  { specialize (Hk fv ltac:(left)). revert Hk.
    unfold Client.query, bind, Client._require_schema.
    destruct (self_schema_locked self); [reflexivity|discriminate]. }
  assert (Hs : ∀ fv', fv' ∈ fv :: items →
            Client.query_single self fv' rf rt w = (Ok (rows fv'), w)).
  { intros fv' Hin. rewrite <- (query_single_eq self Hl). apply Hk, Hin. }
  unfold Client.query.
  rewrite (bind_ok _ _ w w tt) by (apply require_schema_ok, Hl).
  assert (H1 : Client.query_first self fv rf rt w = (Ok (rows fv), w)).
  { pose proof (Hs fv ltac:(left)) as H.
    unfold Client.query_single in H.
    rewrite (bind_ok _ _ w w tt) in H by (apply require_schema_ok, Hl). exact H. }
  rewrite (bind_ok _ _ _ _ _ H1).
  apply query_rest_rows. intros g Hg. apply Hs. right. exact Hg.
Qed.

Lemma three_users_single_queries :
  ∀ fv', fv' ∈ [("team", "eng"); ("email", "u1@x.com")] →
    Client.query team_client [fv'] None None three_users
    = (Ok match (Client.query team_client [fv'] None None three_users).1 with
          | Ok l => l
          | Raise _ => []
          end, three_users).
Proof.
  intros fv' H.
  apply elem_of_cons in H as [->|H]; [vm_compute; reflexivity|].
  apply list_elem_of_singleton in H as ->. vm_compute. reflexivity.
Qed.

Lemma query_intersection_witness :
  Client.query team_client [("team", "eng"); ("email", "u1@x.com")] None None
    three_users
  = (Ok (filter
           (λ r, Forall
                   (λ fv',
                      r ∈ match (Client.query team_client [fv'] None None
                                   three_users).1 with
                          | Ok l => l
                          | Raise _ => []
                          end)
                   [("email", "u1@x.com")])
           match (Client.query team_client [("team", "eng")] None None
                    three_users).1 with
           | Ok l => l
           | Raise _ => []
           end), three_users).
Proof.
  exact (query_intersection team_client ("team", "eng")
           [("email", "u1@x.com")] None None three_users _
           three_users_single_queries).
Defined.

Section case.

Variable self : TableCatalogClient.

Lemma filter_text_same_case (pk : string) (rf rf' rt rt' : option string) :
  Py.lower <$> Client.truthy rf = Py.lower <$> Client.truthy rf' →
  Py.lower <$> Client.truthy rt = Py.lower <$> Client.truthy rt' →
  Client.filter_text pk rf rt = Client.filter_text pk rf' rt'.
Proof.
  unfold Client.filter_text. intros H1 H2.
  destruct (Client.truthy rf), (Client.truthy rf'); simpl in H1;
    try discriminate;
    destruct (Client.truthy rt), (Client.truthy rt'); simpl in H2;
    try discriminate; try injection H1 as ->; try injection H2 as ->;
    reflexivity.
Qed.

Lemma query_first_same_case (a b : string * string)
    (rf rf' rt rt' : option string) :
  a.1 = b.1 → Py.lower a.2 = Py.lower b.2 →
  Py.lower <$> Client.truthy rf = Py.lower <$> Client.truthy rf' →
  Py.lower <$> Client.truthy rt = Py.lower <$> Client.truthy rt' →
  ∀ w, Client.query_first self a rf rt w = Client.query_first self b rf' rt' w.
Proof.
  destruct a as [f v], b as [f' v']. simpl. intros <- Hv H1 H2 w.
  unfold Client.query_first, Client._validate_filter, bind.
  case_bool_decide; [|unfold raise; cbv beta iota; reflexivity].
  unfold ret at 1 3. cbv beta iota zeta.
  change ((f, v).1) with f. change ((f, v).2) with v.
  change ((f, v').1) with f. change ((f, v').2) with v'.
  rewrite (filter_text_same_case _ rf rf' rt rt' H1 H2).
  rewrite (partition_key_same_case f v f v' eq_refl Hv). reflexivity.
Qed.

End case.

(** Queries ignore letter case in the filter values and in the row bounds:
    two ASCII filters with the same fields, whose values agree after
    lower-casing, with ASCII bounds that agree after lower-casing, send the
    same filter texts and give the same result in every state. (Field names
    are compared as they are.) *)
Theorem query_ignores_case (self : TableCatalogClient)
    (f1 f2 : list (string * string)) (rf rf' rt rt' : option string)
    (w : World) :
  same_filter_up_to_case f1 f2 →
  same_bound_up_to_case rf rf' →
  same_bound_up_to_case rt rt' →
  Client.query self f1 rf rt w = Client.query self f2 rf' rt' w.
Proof.
  intros Hf [H1 _] [H2 _].
  assert (Hs : ∀ a b w0, a.1 = b.1 → Py.lower a.2 = Py.lower b.2 →
             Client.query_single self a rf rt w0
             = Client.query_single self b rf' rt' w0).
  { intros a b w0 Ha Hv. unfold Client.query_single, bind.
    destruct (Client._require_schema self w0) as [[[]|e] w1];
      [|cbv beta iota; reflexivity].
    apply query_first_same_case; done. }
  assert (Hr : ∀ l1 l2, same_filter_up_to_case l1 l2 →
             ∀ rs w0, Client.query_rest self l1 rf rt rs w0
                      = Client.query_rest self l2 rf' rt' rs w0).
  { induction 1 as [|a b l1 l2 (Ha & Hv & _) _ IH]; intros rs w0; [reflexivity|].
    simpl. destruct rs; [reflexivity|]. unfold bind.
    rewrite (Hs a b w0 Ha Hv).
    destruct (Client.query_single self b rf' rt' w0) as [[found|e] w1];
      [apply IH|cbv beta iota; reflexivity]. }
  unfold Client.query, bind.
  destruct (Client._require_schema self w) as [[[]|e] w1];
    [|cbv beta iota; reflexivity].
  destruct Hf as [|a b l1 l2 (Ha & Hv & _) Hf]; [cbv beta iota; reflexivity|].
  rewrite (query_first_same_case self a b rf rf' rt rt' Ha Hv H1 H2).
  destruct (Client.query_first self b rf' rt' w1) as [[rs|e] w2];
    [apply Hr, Hf|cbv beta iota; reflexivity].
Qed.

Lemma email_same_up_to_case :
  same_filter_up_to_case [("email", "U1@X.com")] [("email", "u1@x.com")].
Proof. constructor; [repeat split; reflexivity|constructor]. Qed.

Lemma bound_same_up_to_case : same_bound_up_to_case (Some "U1") (Some "u1").
Proof.
  split; [reflexivity|]. split; intros x; cbn [Client.truthy];
    (case_bool_decide; [discriminate|]); intros [= <-]; reflexivity.
Qed.

Lemma no_bound_same : same_bound_up_to_case None None.
Proof. split; [reflexivity|]. split; intros x H; discriminate H. Qed.

Lemma query_ignores_case_witness :
  Client.query team_client [("email", "U1@X.com")] (Some "U1") None three_users
  = Client.query team_client [("email", "u1@x.com")] (Some "u1") None
      three_users.
Proof.
  exact (query_ignores_case team_client [("email", "U1@X.com")]
           [("email", "u1@x.com")] (Some "U1") (Some "u1") None None
           three_users
           email_same_up_to_case bound_same_up_to_case no_bound_same).
Defined.

(** ** Which exceptions can be raised *)
Section errors.

Lemma raises_only_ret {A} (P : exn → Prop) (a : A) : raises_only P (ret a).
Proof. intros w e w' H. discriminate H. Qed.

Lemma raises_only_raise {A} (P : exn → Prop) (e : exn) :
  P e → raises_only P (raise e : M A).
Proof. intros HP w e' w' [= <- _]. exact HP. Qed.

Lemma raises_only_bind {A B} (P : exn → Prop) (m : M A) (k : A → M B) :
  raises_only P m → (∀ a, raises_only P (k a)) → raises_only P (bind m k).
Proof.
  intros Hm Hk w e w'. unfold bind.
  destruct (m w) as [[a|e0] w1] eqn:E; intros H.
  - eapply Hk, H.
  - injection H as <- _. eapply Hm, E.
Qed.

Lemma raises_only_weaken {A} (P Q : exn → Prop) (m : M A) :
  (∀ e, P e → Q e) → raises_only P m → raises_only Q m.
Proof. intros HPQ Hm w e w' H. eapply HPQ, Hm, H. Qed.

Lemma raises_only_for_each {A} (P : exn → Prop) (l : list A)
    (body : A → M unit) :
  (∀ x, raises_only P (body x)) → raises_only P (for_each l body).
Proof.
  intros Hb. induction l as [|x l IH]; simpl.
  - apply raises_only_ret.
  - apply raises_only_bind; [apply Hb|intros _; exact IH].
Qed.

Lemma raises_only_store_call (P : exn → Prop) :
  P HttpResponseError → raises_only P store_call.
Proof.
  intros HP w e w'. unfold store_call.
  destruct (faults w) as [|[] fs]; intros [= <- _]. exact HP.
Qed.

Lemma raises_only_getitem (P : exn → Prop) (d : dict) (k : string) :
  P (KeyError k) → raises_only P (getitem d k).
Proof.
  intros HP. unfold getitem.
  destruct (d !! k); [apply raises_only_ret|apply raises_only_raise, HP].
Qed.

Lemma raises_only_query_entities (P : exn → Prop) (h : handle) (q : odata) :
  P HttpResponseError → raises_only P (query_entities h q).
Proof.
  intros HP. unfold query_entities.
  apply raises_only_bind; [apply raises_only_store_call, HP|].
  intros _ w e w' H. discriminate H.
Qed.

Lemma raises_only_require (self : TableCatalogClient) (P : exn → Prop) :
  (self_schema_locked self = false →
   P (RuntimeError "Schema is not configured.")) →
  raises_only P (Client._require_schema self).
Proof.
  intros HP. unfold Client._require_schema.
  destruct (self_schema_locked self);
    [apply raises_only_ret|apply raises_only_raise, HP; reflexivity].
Qed.

Lemma query_first_errors (self : TableCatalogClient)
    (filter : list (string * string)) (fv : string * string)
    (rf rt : option string) :
  fv ∈ filter →
  raises_only (query_error self filter) (Client.query_first self fv rf rt).
Proof.
  intros Hin. unfold Client.query_first. apply raises_only_bind.
  - unfold Client._validate_filter. destruct fv as [f v].
    case_bool_decide as Hf; [apply raises_only_ret|].
    apply raises_only_raise. right; right; left. exists f.
    split; [|split; [exact Hf|reflexivity]].
    apply list_elem_of_fmap. exists (f, v). split; [reflexivity|exact Hin].
  - intros fv'. apply raises_only_bind.
    + unfold query_entities_text. destruct (parse_filter _).
      * apply raises_only_query_entities. right; right; right. reflexivity.
      * apply raises_only_bind;
          [apply raises_only_store_call|intros _; apply raises_only_raise];
          right; right; right; reflexivity.
    + intros es. apply raises_only_ret.
Qed.

Lemma query_require_errors (self : TableCatalogClient)
    (filter : list (string * string)) :
  raises_only (query_error self filter) (Client._require_schema self).
Proof. apply raises_only_require. intros H. left. split; [exact H|reflexivity]. Qed.

Lemma query_rest_errors (self : TableCatalogClient)
    (filter items : list (string * string)) (rf rt : option string)
    (rs : list dict) :
  items ⊆ filter →
  raises_only (query_error self filter)
    (Client.query_rest self items rf rt rs).
Proof.
  revert rs. induction items as [|fv items IH]; intros rs Hsub; simpl.
  - apply raises_only_ret.
  - destruct rs; [apply raises_only_ret|].
    apply raises_only_bind.
    + unfold Client.query_single. apply raises_only_bind;
        [apply query_require_errors|intros _].
      apply query_first_errors. apply Hsub. left.
    + intros found. apply IH. intros x Hx. apply Hsub. right. exact Hx.
Qed.

End errors.

(** The exceptions of [query]: [RuntimeError] on a client without schema,
    [StopIteration] for the empty filter, [ValueError] naming a field of the
    filter that is no index key, or a failure of the store; nothing else. In
    particular the check that a filter has exactly one key never fails, and
    no result of the store is dereferenced ([KeyError]). A client without
    schema raises in every state, and so does the empty filter. *)
Theorem query_errors (self : TableCatalogClient)
    (filter : list (string * string)) (rf rt : option string) :
  raises_only (query_error self filter) (Client.query self filter rf rt)
  ∧ (self_schema_locked self = false →
     ∀ w, Client.query self filter rf rt w
          = (Raise (RuntimeError "Schema is not configured."), w))
  ∧ (self_schema_locked self = true →
     ∀ w, Client.query self [] rf rt w = (Raise StopIteration, w)).
Proof.
  split; [|split].
  - unfold Client.query. apply raises_only_bind; [apply query_require_errors|].
    intros _. destruct filter as [|fv items].
    + apply raises_only_raise. right; left. done.
    + apply raises_only_bind.
      * apply query_first_errors. left.
      * intros rs. apply query_rest_errors. intros x Hx. right. exact Hx.
  - intros Hl w. unfold Client.query, bind, Client._require_schema.
    rewrite Hl. reflexivity.
  - intros Hl w. apply query_empty_filter, Hl.
Qed.

(** ** Writing to the log *)

Lemma make_tx_row_key_eq (w : World) :
  _make_tx_row_key w
  = (Ok (clock w (ticks w)),
     mkWorld (table w) (wal w) (faults w) (clock w) (S (ticks w))).
Proof. reflexivity. Qed.

Lemma wal_entry_key (id op : string) (payload : dict) (w : World) :
  entity_key (wal_entry id op payload) w = (Ok (wal_address id payload), w).
Proof.
  unfold entity_key, bind, getitem, wal_entry, wal_address.
  destruct (payload !! "PartitionKey") as [pk|] eqn:Epk.
  - rewrite (lookup_spread_payload _ _ _ _ Epk). unfold ret at 1.
    destruct (payload !! "RowKey") as [rk|] eqn:Erk.
    + rewrite (lookup_spread_payload _ _ _ _ Erk). reflexivity.
    + rewrite (lookup_spread_fixed _ _ _ Erk). reflexivity.
  - rewrite (lookup_spread_fixed _ _ _ Epk).
    change ((list_to_map [("PartitionKey", "wal"); ("RowKey", id);
                          ("operation", op)] : dict) !! "PartitionKey")
      with (Some "wal"). unfold ret at 1.
    destruct (payload !! "RowKey") as [rk|] eqn:Erk.
    + rewrite (lookup_spread_payload _ _ _ _ Erk). reflexivity.
    + rewrite (lookup_spread_fixed _ _ _ Erk). reflexivity.
Qed.

(** [_write_wal] for any payload. The entity it builds holds every field
    of the payload as it is: a payload field named [operation],
    [PartitionKey] or [RowKey] replaces the tag or the address the log would
    give. The call always draws one identifier; when it returns, it returns
    that identifier and has created exactly this entity at an address that
    was free; when it raises, the store failed or the address was occupied,
    and the log is as before. The index table is never touched. *)
Theorem write_wal_effect (op : string) (payload : dict) (w : World) :
  let id := clock w (ticks w) in
  let E := wal_entry id op payload in
  let key := wal_address id payload in
  (∀ f x, payload !! f = Some x → E !! f = Some x)
  ∧ (payload !! "operation" = None → E !! "operation" = Some op)
  ∧ match Client._write_wal op payload w with
    | (Ok id', w') =>
        id' = id ∧ wal w !! key = None ∧ wal w' = <[key := E]> (wal w)
        ∧ table w' = table w ∧ ticks w' = S (ticks w)
    | (Raise e, w') =>
        wal w' = wal w ∧ table w' = table w ∧ ticks w' = S (ticks w)
        ∧ (e = HttpResponseError
           ∨ (e = ResourceExistsError ∧ is_Some (wal w !! key)))
    end.
Proof.
  intros id E key. split; [|split].
  - intros f x Hf. apply lookup_spread_payload, Hf.
  - intros Hn. unfold E, wal_entry. rewrite (lookup_spread_fixed _ _ _ Hn).
    reflexivity.
  - unfold Client._write_wal, bind. rewrite make_tx_row_key_eq.
    fold id. fold (wal_entry id op payload). fold E.
    unfold create_entity, bind, store_call. cbn [faults].
    destruct (faults w) as [|[] fs].
    + unfold E. rewrite wal_entry_key. fold key. cbn [get_table wal].
      destruct (wal w !! key) eqn:Ek; cbn.
      * repeat split; try reflexivity. right. split; [reflexivity|eauto].
      * repeat split; reflexivity.
    + cbn. repeat split; try reflexivity. left. reflexivity.
    + unfold set_faults at 1. cbn [table wal faults clock ticks].
      unfold E. rewrite wal_entry_key. fold key. cbn [get_table wal].
      destruct (wal w !! key) eqn:Ek; cbn.
      * repeat split; try reflexivity. right. split; [reflexivity|eauto].
      * repeat split; reflexivity.
Qed.

(** ** Recovery and the log *)
Section log_frame.

Lemma keeps_log_ret {A} (a : A) : keeps_log (ret a).
Proof. intros w r w' [= _ <-]. done. Qed.

Lemma keeps_log_raise {A} (e : exn) : keeps_log (raise e : M A).
Proof. intros w r w' [= _ <-]. done. Qed.

Lemma keeps_log_bind {A B} (m : M A) (k : A → M B) :
  keeps_log m → (∀ a, keeps_log (k a)) → keeps_log (bind m k).
Proof.
  intros Hm Hk w r w'. unfold bind.
  destruct (m w) as [[a|e] w1] eqn:E; intros H.
  - destruct (Hm _ _ _ E) as (H1 & H2 & H3).
    destruct (Hk a _ _ _ H) as (H4 & H5 & H6).
    split; [|split; congruence].
    intros key Hkey. rewrite H4, H1 by done. reflexivity.
  - injection H as _ <-. eapply Hm, E.
Qed.

Lemma keeps_log_try {A} (m h : M A) (c : exn → bool) :
  keeps_log m → keeps_log h → keeps_log (try_except m c h).
Proof.
  intros Hm Hh w r w'. unfold try_except.
  destruct (m w) as [[a|e] w1] eqn:E.
  - intros [= <- <-]. eapply Hm, E.
  - destruct (c e).
    + intros H. destruct (Hm _ _ _ E) as (H1 & H2 & H3).
      destruct (Hh _ _ _ H) as (H4 & H5 & H6).
      split; [|split; congruence].
      intros key Hkey. rewrite H4, H1 by done. reflexivity.
    + intros [= <- <-]. eapply Hm, E.
Qed.

Lemma keeps_log_for_each {A} (l : list A) (body : A → M unit) :
  (∀ x, keeps_log (body x)) → keeps_log (for_each l body).
Proof.
  intros Hb. induction l as [|x l IH]; simpl.
  - apply keeps_log_ret.
  - apply keeps_log_bind; [apply Hb|intros _; exact IH].
Qed.

Lemma keeps_log_getitem (d : dict) (k : string) : keeps_log (getitem d k).
Proof.
  unfold getitem. destruct (d !! k); [apply keeps_log_ret|apply keeps_log_raise].
Qed.

Lemma keeps_log_store_call : keeps_log store_call.
Proof.
  intros w r w'. unfold store_call.
  destruct (faults w) as [|b fs]; intros [= _ <-]; done.
Qed.

Lemma keeps_log_entity_key (e : dict) : keeps_log (entity_key e).
Proof.
  unfold entity_key. apply keeps_log_bind; [apply keeps_log_getitem|].
  intros pk. apply keeps_log_bind; [apply keeps_log_getitem|].
  intros rk. apply keeps_log_ret.
Qed.

Lemma keeps_log_create (e : dict) : keeps_log (create_entity IndexTable e).
Proof.
  unfold create_entity. apply keeps_log_bind; [apply keeps_log_store_call|].
  intros _. apply keeps_log_bind; [apply keeps_log_entity_key|].
  intros key w r w'. cbn [get_table].
  destruct (table w !! key); intros [= _ <-]; done.
Qed.

Lemma keeps_log_delete (pk rk : string) :
  keeps_log (delete_entity IndexTable pk rk).
Proof.
  unfold delete_entity. apply keeps_log_bind; [apply keeps_log_store_call|].
  intros _ w r w'. cbn [get_table].
  destruct (table w !! (pk, rk)); intros [= _ <-]; done.
Qed.

Lemma keeps_log_get (h : handle) (pk rk : string) :
  keeps_log (get_entity h pk rk).
Proof.
  unfold get_entity. apply keeps_log_bind; [apply keeps_log_store_call|].
  intros _ w r w'.
  destruct (get_table h w !! (pk, rk)); intros [= _ <-]; done.
Qed.

Lemma keeps_log_query_entities (h : handle) (q : odata) :
  keeps_log (query_entities h q).
Proof.
  unfold query_entities. apply keeps_log_bind; [apply keeps_log_store_call|].
  intros _ w r w' [= _ <-]. done.
Qed.

Lemma keeps_log_content_key (self : TableCatalogClient) (p : dict) :
  keeps_log (Client.content_key self p).
Proof.
  intros w r w'. rewrite content_key_eq. intros [= _ <-]. done.
Qed.

Lemma keeps_log_apply_entry (self : TableCatalogClient) (o : dict) :
  keeps_log (Client.apply_entry self o).
Proof.
  unfold Client.apply_entry. apply keeps_log_bind; [apply keeps_log_getitem|].
  intros op. case_bool_decide; [|case_bool_decide; [|apply keeps_log_ret]].
  - unfold Client._apply_insert.
    apply keeps_log_bind; [apply keeps_log_content_key|]. intros rk.
    apply keeps_log_for_each. intros key.
    apply keeps_log_bind; [apply keeps_log_getitem|]. intros v.
    apply keeps_log_try; [apply keeps_log_create|apply keeps_log_ret].
  - unfold Client._apply_delete.
    apply keeps_log_bind; [apply keeps_log_content_key|]. intros rk.
    apply keeps_log_for_each. intros key.
    apply keeps_log_bind; [apply keeps_log_getitem|]. intros v.
    apply keeps_log_try; [apply keeps_log_delete|apply keeps_log_ret].
Qed.

Lemma keeps_log_advance (o : dict) : keeps_log (Client.advance_checkpoint o).
Proof.
  unfold Client.advance_checkpoint.
  apply keeps_log_bind; [apply keeps_log_getitem|]. intros id.
  unfold upsert_entity. apply keeps_log_bind; [apply keeps_log_store_call|].
  intros _. rewrite checkpoint_entity_keys. intros w r w'.
  unfold bind, ret. intros [= _ <-]. cbn.
  split; [|done]. intros key Hkey. apply lookup_insert_ne. done.
Qed.

Lemma keeps_log_start_of (st : option string) : keeps_log (Client.start_of st).
Proof.
  unfold Client.start_of. destruct (Client.truthy st); [apply keeps_log_ret|].
  apply keeps_log_try; [|apply keeps_log_ret].
  apply keeps_log_bind; [apply keeps_log_get|].
  intros e. apply keeps_log_getitem.
Qed.

Lemma keeps_log_recover (self : TableCatalogClient) (st : option string) :
  keeps_log (Client.recover self st).
Proof.
  unfold Client.recover. apply keeps_log_bind; [apply keeps_log_start_of|].
  intros s. apply keeps_log_bind; [apply keeps_log_query_entities|].
  intros orphans. apply keeps_log_for_each. intros o.
  unfold Client.replay. apply keeps_log_bind; [apply keeps_log_apply_entry|].
  intros _. apply keeps_log_advance.
Qed.

Lemma replay_all_checkpoint (self : TableCatalogClient) (Q : string → Prop)
    (orphans : list dict) (w : World) (r : Result unit) (w' : World) :
  (∀ o, o ∈ orphans → ∃ id, o !! "RowKey" = Some id ∧ Q id) →
  for_each orphans (Client.replay self) w = (r, w') →
  checkpoint w' = checkpoint w ∨ ∃ id, Q id ∧ checkpoint w' = Some id.
Proof.
  revert w. induction orphans as [|o l IH]; intros w Hq; simpl.
  - intros [= _ <-]. left. reflexivity.
  - unfold bind.
    destruct (Hq o ltac:(left)) as (id & Hid & HQ).
    destruct (Client.replay self o w) as [[[]|e] w1] eqn:E.
    + intros H. apply IH in H; [|intros o' Ho'; apply Hq; right; exact Ho'].
      destruct H as [H|H]; [|right; exact H].
      destruct (replay_inv self _ _ _ _ _ Hid E) as [[H1 _]|[H1 _]].
      * left. congruence.
      * right. exists id. split; [exact HQ|congruence].
    + intros [= _ <-].
      destruct (replay_inv self _ _ _ _ _ Hid E) as [[H1 _]|[_ H1]];
        [left; exact H1|discriminate].
Qed.

End log_frame.

(** Recovery never rewrites the log. Whatever the start time, the state
    and the behaviour of the store, and whether it returns or raises,
    [recover] leaves every entity of the WAL table other than the checkpoint
    as it was (none is removed, changed or added) and draws no identifier;
    and the checkpoint it leaves is the one it found or the identifier of an
    entry that was logged. *)
Theorem recover_keeps_log (self : TableCatalogClient)
    (start_time : option string) (w : World) :
  let w' := after (Client.recover self start_time) w in
  (∀ key, key ≠ ("metadata", "checkpoint") → wal w' !! key = wal w !! key)
  ∧ clock w' = clock w ∧ ticks w' = ticks w
  ∧ (checkpoint w' = checkpoint w
     ∨ ∃ id e, wal w !! ("wal", id) = Some e ∧ checkpoint w' = Some id).
Proof.
  intros w'. unfold w', after.
  destruct (Client.recover self start_time w) as [r w1] eqn:E. cbn [snd].
  destruct (keeps_log_recover self start_time _ _ _ E) as (H1 & H2 & H3).
  split; [exact H1|split; [exact H2|split; [exact H3|]]].
  revert E. unfold Client.recover, bind.
  destruct (Client.start_of start_time w) as [[s|e] wa] eqn:Es.
  2:{ intros [= _ <-]. left. apply start_of_inv in Es as (_ & Hw & _).
      unfold checkpoint. rewrite Hw. reflexivity. }
  apply start_of_inv in Es as (_ & Hwa & _).
  destruct (query_entities WalTable ("wal", [(Gt, s)]) wa) as [[l|e] wb] eqn:Eq.
  2:{ intros [= _ <-]. left. apply query_entities_inv in Eq as (_ & Hw & _).
      unfold checkpoint. rewrite Hw, Hwa. reflexivity. }
  apply query_entities_inv in Eq as (_ & Hwb & Hl).
  specialize (Hl l eq_refl). cbn [get_table] in Hl.
  intros H.
  apply (replay_all_checkpoint self (λ id, is_Some (wal w !! ("wal", id)))) in H.
  - assert (Hc : checkpoint wb = checkpoint w).
    { unfold checkpoint. rewrite Hwb, Hwa. reflexivity. }
    destruct H as [H|(id & [e He] & H)].
    + left. congruence.
    + right. exists id, e. split; [exact He|exact H].
  - intros o Ho. rewrite Hl in Ho.
    apply orphans_after in Ho as (id & props & _ & Hp & _ & Hid).
    exists id. split; [exact Hid|]. rewrite <- Hwa. eauto.
Qed.

(** ** Recovery catches up *)
Section catch_up.

Variable self : TableCatalogClient.





End catch_up.









(** ** The exceptions of recovery and of insert *)
Section recover_errors.

Lemma raises_only_try {A} (P : exn → Prop) (m h : M A) (c : exn → bool) :
  raises_only (λ e, c e = true ∨ P e) m → raises_only P h →
  raises_only P (try_except m c h).
Proof.
  intros Hm Hh w e w'. unfold try_except.
  destruct (m w) as [[a|e0] w1] eqn:E; [discriminate|].
  destruct (c e0) eqn:Ec.
  - intros H. eapply Hh, H.
  - intros [= <- _]. destruct (Hm _ _ _ E) as [H|H]; [congruence|exact H].
Qed.

Lemma raises_only_entity_key (P : exn → Prop) (e : dict) :
  (∀ k, P (KeyError k)) → raises_only P (entity_key e).
Proof.
  intros HP. unfold entity_key.
  apply raises_only_bind; [apply raises_only_getitem, HP|]. intros pk.
  apply raises_only_bind; [apply raises_only_getitem, HP|]. intros rk.
  apply raises_only_ret.
Qed.

Lemma recover_error_http : recover_error HttpResponseError.
Proof. left. reflexivity. Qed.

Lemma recover_error_key (k : string) : recover_error (KeyError k).
Proof. right. exists k. reflexivity. Qed.

Lemma start_of_errors (st : option string) :
  raises_only recover_error (Client.start_of st).
Proof.
  unfold Client.start_of. destruct (Client.truthy st); [apply raises_only_ret|].
  apply raises_only_try; [|apply raises_only_ret].
  apply raises_only_bind.
  - unfold get_entity. apply raises_only_bind.
    + apply raises_only_store_call. right. apply recover_error_http.
    + intros _ w e w'. destruct (get_table WalTable w !! _); intros [= <- _].
      left. reflexivity.
  - intros e. apply raises_only_getitem. right. apply recover_error_key.
Qed.

Lemma content_key_errors (self : TableCatalogClient) (p : dict) :
  raises_only recover_error (Client.content_key self p).
Proof.
  unfold Client.content_key.
  apply raises_only_bind; [apply raises_only_getitem, recover_error_key|].
  intros pv. destruct (_row_key p pv _);
    [apply raises_only_raise, recover_error_key|apply raises_only_ret].
Qed.

Lemma apply_entry_errors (self : TableCatalogClient) (o : dict) :
  raises_only recover_error (Client.apply_entry self o).
Proof.
  unfold Client.apply_entry.
  apply raises_only_bind; [apply raises_only_getitem, recover_error_key|].
  intros op. case_bool_decide; [|case_bool_decide; [|apply raises_only_ret]].
  - unfold Client._apply_insert.
    apply raises_only_bind; [apply content_key_errors|]. intros rk.
    apply raises_only_for_each. intros key.
    apply raises_only_bind; [apply raises_only_getitem, recover_error_key|].
    intros v. apply raises_only_try; [|apply raises_only_ret].
    unfold create_entity. apply raises_only_bind.
    + apply raises_only_store_call. right. apply recover_error_http.
    + intros _. apply raises_only_bind.
      * apply raises_only_entity_key. intros k. right. apply recover_error_key.
      * intros k w e w'. destruct (get_table IndexTable w !! k);
          intros [= <- _]. left. reflexivity.
  - unfold Client._apply_delete.
    apply raises_only_bind; [apply content_key_errors|]. intros rk.
    apply raises_only_for_each. intros key.
    apply raises_only_bind; [apply raises_only_getitem, recover_error_key|].
    intros v. apply raises_only_try; [|apply raises_only_ret].
    unfold delete_entity. apply raises_only_bind.
    + apply raises_only_store_call. right. apply recover_error_http.
    + intros _ w e w'. destruct (get_table IndexTable w !! _);
        intros [= <- _]. left. reflexivity.
Qed.

Lemma advance_checkpoint_errors (o : dict) :
  raises_only recover_error (Client.advance_checkpoint o).
Proof.
  unfold Client.advance_checkpoint.
  apply raises_only_bind; [apply raises_only_getitem, recover_error_key|].
  intros id. unfold upsert_entity. apply raises_only_bind.
  - apply raises_only_store_call, recover_error_http.
  - intros _. apply raises_only_bind.
    + apply raises_only_entity_key, recover_error_key.
    + intros k w e w' H. discriminate H.
Qed.

Lemma recover_raises (self : TableCatalogClient) (st : option string) :
  raises_only recover_error (Client.recover self st).
Proof.
  unfold Client.recover. apply raises_only_bind; [apply start_of_errors|].
  intros s. apply raises_only_bind.
  - apply raises_only_query_entities, recover_error_http.
  - intros orphans. apply raises_only_for_each. intros o.
    unfold Client.replay. apply raises_only_bind; [apply apply_entry_errors|].
    intros _. apply advance_checkpoint_errors.
Qed.

Lemma write_wal_raises (op : string) (payload : dict) :
  raises_only (λ e, e = HttpResponseError ∨ e = ResourceExistsError)
    (Client._write_wal op payload).
Proof.
  unfold Client._write_wal. apply raises_only_bind.
  - intros w e w' H. discriminate H.
  - intros id. fold (wal_entry id op payload). apply raises_only_bind.
    + unfold create_entity. apply raises_only_bind.
      * apply raises_only_store_call. left. reflexivity.
      * intros _ w e w'. unfold bind. rewrite wal_entry_key.
        destruct (get_table WalTable w !! _); intros [= <- _].
        right. reflexivity.
    + intros _. apply raises_only_ret.
Qed.

Lemma write_then_recover_raises (self : TableCatalogClient) (R : dict) :
  raises_only (λ e, e = ResourceExistsError ∨ recover_error e)
    (Client._write_wal "insert" R ;; Client.recover self None ;; ret R).
Proof.
  apply raises_only_bind.
  - eapply raises_only_weaken; [|apply write_wal_raises].
    intros e [->| ->]; [right; apply recover_error_http|left; reflexivity].
  - intros _. apply raises_only_bind.
    + eapply raises_only_weaken; [|apply recover_raises]. intros e He. right. exact He.
    + intros _. apply raises_only_ret.
Qed.

End recover_errors.

(** The exceptions of [recover]: a failure of the store, or [KeyError] for
    an entry or payload that lacks a field replay reads; nothing else. The
    conflicts of the store ([ResourceExistsError] while creating,
    [ResourceNotFoundError] while deleting or reading the checkpoint) never
    leave [recover]. *)
Theorem recover_errors (self : TableCatalogClient)
    (start_time : option string) :
  raises_only recover_error (Client.recover self start_time)
  ∧ ∀ w w', Client.recover self start_time w ≠ (Raise ResourceExistsError, w')
            ∧ Client.recover self start_time w
              ≠ (Raise ResourceNotFoundError, w').
Proof.
  split; [apply recover_raises|].
  intros w w'. split; intros H; apply recover_raises in H as [H|[k H]];
    discriminate H.
Qed.

(** [insert] validates before it writes. It returns only the record it
    was given, and only when the schema is locked and the record has every
    index key and the primary field. It raises only [RuntimeError] (no
    schema), [ValueError] listing exactly the missing required fields,
    [ResourceExistsError] (the log address is occupied) or an exception of
    recovery; and whenever it raises [RuntimeError] or [ValueError], the
    state is as it was: nothing was logged or applied. *)
Theorem insert_validates_first (self : TableCatalogClient) (R : dict) :
  raises_only (insert_error self R) (Client.insert self R)
  ∧ (∀ w e w', Client.insert self R w = (Raise e, w') →
       (∃ m, e = RuntimeError m) ∨ (∃ v, e = ValueError v) → w' = w)
  ∧ (∀ w r w', Client.insert self R w = (Ok r, w') →
       r = R ∧ self_schema_locked self = true
       ∧ ∀ f, f ∈ self_index_keys self ++ [self_row_key self] →
              is_Some (R !! f)).
Proof.
  assert (Hshape : ∀ w,
    Client.insert self R w =
    if self_schema_locked self then
      match filter (λ k, R !! k = None)
              (self_index_keys self ++ [self_row_key self]) with
      | (_ :: _) as m => (Raise (ValueError (MissingFields m)), w)
      | [] => (Client._write_wal "insert" R ;; Client.recover self None ;; ret R) w
      end
    else (Raise (RuntimeError "Schema is not configured."), w)).
  { intros w. unfold Client.insert, Client._require_schema.
    destruct (self_schema_locked self); [|reflexivity].
    unfold bind at 1. unfold ret at 1.
    destruct (filter _ _); reflexivity. }
  split; [|split].
  - intros w e w'. rewrite Hshape.
    destruct (self_schema_locked self) eqn:El.
    + destruct (filter _ _) as [|f fs] eqn:Em.
      * intros H. apply write_then_recover_raises in H.
        right; right. destruct H as [H|H]; [left; exact H|right; exact H].
      * intros [= <- _]. right; left. exists (f :: fs).
        split; [done|]. split; [symmetry; exact Em|reflexivity].
    + intros [= <- _]. left. split; [exact El|reflexivity].
  - intros w e w'. rewrite Hshape.
    destruct (self_schema_locked self).
    + destruct (filter _ _) as [|f fs].
      * intros H Hc. apply write_then_recover_raises in H.
        destruct H as [->|[->|[k ->]]]; destruct Hc as [[? Hc]|[? Hc]];
          discriminate Hc.
      * intros [= _ <-] _. reflexivity.
    + intros [= _ <-] _. reflexivity.
  - intros w r w'. rewrite Hshape.
    destruct (self_schema_locked self); [|discriminate].
    destruct (filter _ _) as [|f fs] eqn:Em; [|discriminate].
    intros H. split; [|split; [reflexivity|]].
    + revert H. unfold bind.
      destruct (Client._write_wal "insert" R w) as [[id|e] w1]; [|discriminate].
      destruct (Client.recover self None w1) as [[[]|e] w2]; [|discriminate].
      intros [= <- _]. reflexivity.
    + intros f Hf. destruct (R !! f) eqn:Ef; [eauto|].
      assert (Hin : f ∈ filter (λ k, R !! k = None)
                      (self_index_keys self ++ [self_row_key self])).
      { apply list_elem_of_filter. split; [exact Ef|exact Hf]. }
      rewrite Em in Hin. inversion Hin.
Qed.

(** ** Delete after insert, insert after delete *)
Section compose.

Variable self : TableCatalogClient.
Variables (p : dict) (rk : string).

Lemma delete_insert_rows (ks : list string) (t : Table) :
  delete_rows p rk ks (insert_rows p rk ks t) = delete_rows p rk ks t.
Proof.
  apply map_eq. intros key. rewrite !delete_rows_lookup.
  destruct (decide (key ∈ targets p rk ks)) as [Hin|Hout]; [reflexivity|].
  rewrite insert_rows_lookup. destruct (t !! key); [reflexivity|].
  rewrite decide_False by exact Hout. reflexivity.
Qed.

Lemma insert_delete_rows_lookup (ks : list string) (t : Table)
    (key : string * string) :
  insert_rows p rk ks (delete_rows p rk ks t) !! key =
  if decide (key ∈ targets p rk ks)
  then Some (index_entity p key.1 rk) else t !! key.
Proof.
  rewrite insert_rows_lookup, delete_rows_lookup.
  destruct (decide (key ∈ targets p rk ks)); [reflexivity|].
  destruct (t !! key); reflexivity.
Qed.

Lemma table_set_table (t : Table) (w : World) :
  table (set_table IndexTable t w) = t.
Proof. reflexivity. Qed.

End compose.

(** Delete undoes insert, and insert after delete replaces. For a payload
    with a content key, when the store fails no call: applying the insert
    and then the delete leaves the index table as the delete alone would,
    with none of the payload's addresses occupied, and the state exactly as
    it was when these addresses were free before; applying the delete and
    then the insert leaves the payload's own entity at each of its
    addresses, whatever was stored there, and every other address as it
    was. *)
Theorem apply_delete_undoes_insert (self : TableCatalogClient)
    (payload : dict) (rk : string) (w : World) :
  faults w = [] → stripped payload →
  content_key_of self payload = Ok rk →
  let ins := Client._apply_insert self payload in
  let del := Client._apply_delete self payload in
  let tg := targets payload rk (self_index_keys self) in
  (∃ w1 w2, ins w = (Ok tt, w1) ∧ del w1 = (Ok tt, w2)
     ∧ w2 = after del w
     ∧ (∀ key, key ∈ tg → table w2 !! key = None)
     ∧ ((∀ key, key ∈ tg → table w !! key = None) → w2 = w))
  ∧ (∃ w1 w2, del w = (Ok tt, w1) ∧ ins w1 = (Ok tt, w2)
       ∧ ∀ key, table w2 !! key =
                if decide (key ∈ tg)
                then Some (index_entity payload key.1 rk)
                else table w !! key).
Proof.
  intros Hf Hs Hck ins del tg. unfold ins, del, tg, after.
  assert (Hi : ∀ w0, faults w0 = [] →
            Client._apply_insert self payload w0 =
            (Ok tt, set_table IndexTable
               (insert_rows payload rk (self_index_keys self) (table w0)) w0)).
  { intros w0 H0. rewrite (apply_insert_ok self payload w0 H0 Hs), Hck.
    reflexivity. }
  assert (Hd : ∀ w0, faults w0 = [] →
            Client._apply_delete self payload w0 =
            (Ok tt, set_table IndexTable
               (delete_rows payload rk (self_index_keys self) (table w0)) w0)).
  { intros w0 H0. rewrite (apply_delete_ok self payload w0 H0), Hck.
    reflexivity. }
  split.
  - exists (set_table IndexTable
              (insert_rows payload rk (self_index_keys self) (table w)) w),
           (set_table IndexTable
              (delete_rows payload rk (self_index_keys self) (table w)) w).
    split; [apply Hi, Hf|]. split; [|split; [|split]].
    + rewrite Hd by exact Hf.
      rewrite set_table_twice, table_set_table, delete_insert_rows.
      reflexivity.
    + rewrite (Hd w Hf). reflexivity.
    + intros key Hk. rewrite table_set_table, delete_rows_lookup.
      rewrite decide_True by exact Hk. reflexivity.
    + intros Hfree. rewrite delete_rows_all_absent by exact Hfree.
      apply (set_table_same IndexTable).
  - exists (set_table IndexTable
              (delete_rows payload rk (self_index_keys self) (table w)) w),
           (set_table IndexTable
              (insert_rows payload rk (self_index_keys self)
                 (delete_rows payload rk (self_index_keys self) (table w))) w).
    split; [apply Hd, Hf|]. split.
    + rewrite Hi by exact Hf. rewrite set_table_twice, table_set_table.
      reflexivity.
    + intros key. rewrite table_set_table. apply insert_delete_rows_lookup.
Qed.

Lemma u1_stripped : stripped u1.
Proof. split; reflexivity. Qed.

Lemma empty_world_quiet : faults empty_world = [].
Proof. reflexivity. Qed.

Lemma apply_delete_undoes_insert_witness :
  ∃ w1 w2,
    Client._apply_insert team_client u1 empty_world = (Ok tt, w1)
    ∧ Client._apply_delete team_client u1 w1 = (Ok tt, w2)
    ∧ w2 = after (Client._apply_delete team_client u1) empty_world
    ∧ (∀ key, key ∈ targets u1 "u1:9e4a4bd7" (self_index_keys team_client) →
              table w2 !! key = None)
    ∧ ((∀ key, key ∈ targets u1 "u1:9e4a4bd7" (self_index_keys team_client) →
               table empty_world !! key = None) → w2 = empty_world).
Proof.
  exact (proj1 (apply_delete_undoes_insert team_client u1 "u1:9e4a4bd7"
                  empty_world empty_world_quiet u1_stripped u1_content_key)).
Defined.

(** ** Delete *)
Section delete_errors.

Variable self : TableCatalogClient.




End delete_errors.


(** ** The operation tag of stored rows *)
Section tags.

Lemma payload_keeps_operation (e : dict) :
  _entity_to_payload e !! "operation" = e !! "operation".
Proof.
  rewrite entity_to_payload_lookup. rewrite bool_decide_eq_false_2; [done|].
  unfold metadata_keys. intros H.
  repeat (apply elem_of_cons in H as [H|H]; [discriminate H|]).
  inversion H.
Qed.

Lemma stamp_keeps_operation (key : string * string) (e : dict) :
  stamp key e !! "operation" = e !! "operation".
Proof. apply stamp_other; discriminate. Qed.

Lemma stored_row_operation (key : string * string) (id op : string)
    (R : dict) (pk rk : string) :
  R !! "operation" = None →
  stored_row key id op R pk rk !! "operation" = Some op.
Proof.
  intros HR. unfold stored_row.
  rewrite payload_keeps_operation, stamp_keeps_operation.
  apply lookup_spread_payload.
  rewrite payload_keeps_operation, stamp_keeps_operation.
  apply wal_entry_operation, HR.
Qed.

Lemma wal_entry_tag_ignored (id op op' x : string) (r : dict) :
  r !! "operation" = Some x → wal_entry id op r = wal_entry id op' r.
Proof.
  intros Hr. apply map_eq. intros k. unfold wal_entry.
  destruct (r !! k) as [v|] eqn:Ek.
  - rewrite !(lookup_spread_payload _ _ _ _ Ek). reflexivity.
  - rewrite !(lookup_spread_fixed _ _ _ Ek).
    assert (Hk : k ≠ "operation") by congruence.
    cbn [list_to_map foldr uncurry fst snd].
    destruct (decide (k = "PartitionKey")) as [->|H1];
      [rewrite !lookup_insert_eq; reflexivity|].
    rewrite !(lookup_insert_ne _ "PartitionKey") by done.
    destruct (decide (k = "RowKey")) as [->|H2];
      [rewrite !lookup_insert_eq; reflexivity|].
    rewrite !(lookup_insert_ne _ "RowKey") by done.
    rewrite !(lookup_insert_ne _ "operation") by done. reflexivity.
Qed.

End tags.

(** A stored row keeps the operation tag of the entry it was replayed
    from, and that tag overrides the operation of every later log entry
    written for the row. The row replay stores for a record without
    [operation] field inserted through the log comes back from a query with
    [operation = insert]; [_write_wal] then writes the same entry for this
    row whatever operation it is given, [delete] included; and replaying
    the entry written for its deletion applies an insert. *)
Theorem row_tag_overrides_operation (self : TableCatalogClient) (R : dict)
    (id id' : string) (key key' : string * string) (pk rk : string) :
  R !! "operation" = None →
  let row := stored_row key id "insert" R pk rk in
  row !! "operation" = Some "insert"
  ∧ (∀ op w, Client._write_wal op row w = Client._write_wal "insert" row w)
  ∧ (∀ w, Client.apply_entry self (stamp key' (wal_entry id' "delete" row)) w
          = Client._apply_insert self
              (_entity_to_payload (stamp key' (wal_entry id' "delete" row))) w).
Proof.
  intros HR row.
  assert (Hrow : row !! "operation" = Some "insert")
    by (apply stored_row_operation, HR).
  split; [exact Hrow|]. split.
  - intros op w. unfold Client._write_wal, bind.
    rewrite make_tx_row_key_eq.
    fold (wal_entry (clock w (ticks w)) op row).
    fold (wal_entry (clock w (ticks w)) "insert" row).
    rewrite (wal_entry_tag_ignored _ op "insert" _ _ Hrow). reflexivity.
  - intros w. unfold Client.apply_entry, bind, getitem.
    rewrite stamp_keeps_operation, (wal_entry_field _ _ _ _ _ Hrow).
    unfold ret at 1. rewrite bool_decide_eq_true_2 by reflexivity. reflexivity.
Qed.

Lemma u1_untagged : u1 !! "operation" = None.
Proof. reflexivity. Qed.

Lemma row_tag_overrides_operation_witness :
  stored_row ("wal", "2026-01-01") "2026-01-01" "insert" u1
    "5_emaila@x.com" "u1:9e4a4bd7" !! "operation" = Some "insert".
Proof.
  exact (proj1 (row_tag_overrides_operation team_client u1
                  "2026-01-01" "2026-01-02" ("wal", "2026-01-01")
                  ("wal", "2026-01-02") "5_emaila@x.com" "u1:9e4a4bd7"
                  u1_untagged)).
Defined.

(** ** Recovery after a failed recovery *)
Section faulty_loops.



End faulty_loops.

Section partial_loops.

Variables (p : dict) (rk : string).





End partial_loops.

Section faulty_replay.

Variable self : TableCatalogClient.






End faulty_replay.

Section resume_scan.





End resume_scan.

Section resume.

Variable self : TableCatalogClient.





End resume.






(** ** Durability of insert *)
Section durable.

Variable self : TableCatalogClient.





End durable.







(** ** A store failure during the application of an entry *)
Section failing_apply.



Variables (p : dict) (rk : string).



End failing_apply.

Section failing_entry.

Variable self : TableCatalogClient.






End failing_entry.






